(** * uloop_check: the differential driver of the uLoop controller

    A shallow embedding of [uloop_check.py]: the high-level reference
    generator [iterate_hl_loop], the cycle loop of [uloop_check] and the
    module-level sweep over configurations, followed by the properties
    of the driver.

    Python integers are unbounded, so they are [Z]; Python lists of
    integers are [list Z]; a generator is the list of the tuples it has
    still to yield.  Printing and the calls into [uloop_common] are
    recorded, in order, in a trace. *)

From Stdlib Require Import String ZArith List Bool Lia.
Import ListNotations.
Open Scope Z_scope.

(** ** Constants of the module *)

(** Sets the overall number of loops activated in the microcode. *)
Definition NB_LOOPS : Z := 1.

Definition VERBOSE : bool := true.

(** The cycle budget: the stop of [range(0,1000)]. *)
Definition CYCLES : Z := 1000.

(** Python's [range(lo, hi)]. *)
Definition range (lo hi : Z) : list Z :=
  map (fun k => lo + Z.of_nat k) (seq 0 (Z.to_nat (hi - lo))).

Arguments range : simpl never.

(** ** The high-level loop *)

(** What the generator yields: [a_idx, b_idx, c_idx, d_idx, curr_idx],
    where [curr_idx] is the one-element tuple [(i,)]. *)
Definition hl_tuple : Type := Z * Z * Z * Z * list Z.

(** The body of the [for] loop of [iterate_hl_loop], run over the items
    of the range that are left, from the current accumulators. *)
Fixpoint hl_body (iter_stride one_stride : Z) (rng : list Z)
         (a_idx b_idx c_idx d_idx : Z) : list hl_tuple :=
  match rng with
  | [] => []
  | i :: rest =>
      let a_idx := a_idx + iter_stride in
      let b_idx := b_idx + iter_stride in
      let c_idx := c_idx + one_stride in
      let d_idx := d_idx + one_stride in
      let curr_idx := [i] in
      (a_idx, b_idx, c_idx, d_idx, curr_idx)
        :: hl_body iter_stride one_stride rest a_idx b_idx c_idx d_idx
  end.

Definition iterate_hl_loop (nb_iter iter_stride one_stride : Z)
  : list hl_tuple :=
  hl_body iter_stride one_stride (range 0 (nb_iter - 1)) 0 0 0 0.

(** [next(g)]: the tuple yielded and the generator afterwards, or [None]
    for [StopIteration]. *)
Definition next (g : list hl_tuple) : option (hl_tuple * list hl_tuple) :=
  match g with
  | [] => None
  | t :: g' => Some (t, g')
  end.

(** ** Effects *)

(** The state of the controller: [(0,0,0,idx)] at the start. *)
Definition fsm_state : Type := Z * Z * Z * list Z.

(** What a run does that can be seen from outside: the lines it prints
    and the calls it makes, in the order it makes them. *)
Inductive event : Type :=
| PrintConfig (nb_iter iter_stride one_stride : Z)
| PrintError
| PrintHighLevel (ha hb hc hd : Z)
| PrintULoop (ua ub uc ud : Z)
| PrintErrors (err : Z) (bang : bool)
| CallLoad (file : string)
| CallGetLoops (loops_range : list Z)
| CallExecute (state : fsm_state) (registers : list Z)
| CallStateMachine (state : fsm_state) (verbose : bool) (nb_loops : Z)
| CallNext (yielded : option hl_tuple)
| CallPrintIdx (state : fsm_state) (registers : list Z).

(** The exceptions the driver itself can raise: a local read before it
    was bound, an unpacking of the wrong length, a global read before it
    was bound. *)
Inductive exn : Type :=
| UnboundLocalError
| ValueError
| NameError.

(** The module's global variables, bound by the sweep. *)
Record globals : Type := mkGlobals {
  g_nb_iter : option Z;
  g_iter_stride : option Z;
  g_one_stride : option Z;
  g_err : option Z
}.

(** What outlives a call: the globals and everything done so far. *)
Record world : Type := mkWorld {
  vars : globals;
  trace : list event
}.

Definition no_globals : globals := mkGlobals None None None None.
Definition empty_world : world := mkWorld no_globals [].

(** A computation: from a world to the world afterwards and either an
    exception or a value. *)
Definition M (A : Type) : Type := world -> world * (exn + A).

Definition ret {A} (a : A) : M A := fun w => (w, inr a).

Definition bind {A B} (m : M A) (k : A -> M B) : M B :=
  fun w =>
    match m w with
    | (w', inr a) => k a w'
    | (w', inl e) => (w', inl e)
    end.

Definition raise {A} (e : exn) : M A := fun w => (w, inl e).

Definition emit_all (w : world) (evs : list event) : world :=
  mkWorld (vars w) (trace w ++ evs).

Definition emit (e : event) : M unit := fun w => (emit_all w [e], inr tt).

Declare Scope monad_scope.
Delimit Scope monad_scope with monad.
Notation "x <- m ;; k" := (bind m (fun x => k))
  (at level 61, m at next level, right associativity) : monad_scope.
Notation "' pat <- m ;; k" := (bind m (fun x => match x with pat => k end))
  (at level 61, pat pattern, m at next level, right associativity)
  : monad_scope.
Notation "m ;;; k" := (bind m (fun _ => k))
  (at level 61, right associativity) : monad_scope.
Open Scope monad_scope.

(** The events of a computation run from the empty world, and its
    result there. *)
Definition out {A} (m : M A) : list event := trace (fst (m empty_world)).
Definition res {A} (m : M A) : exn + A := snd (m empty_world).

(** A computation that reads nothing of the world and only adds events
    to it. *)
Definition writes_only {A} (m : M A) : Prop :=
  forall w, m w = (emit_all w (out m), res m).

(** The computation adds the events [evs] to any world, changes nothing
    else of it, and ends in [r]. *)
Definition runs {A} (m : M A) (evs : list event) (r : exn + A) : Prop :=
  forall w, m w = (emit_all w evs, r).

(** ** The collaborators from [uloop_common]

    [uloop_check.py] imports everything else from [uloop_common]: the
    loader of the microcode, the builder of the loop geometry, the
    executor and the state machine.  They are an interface here, each a
    function of its arguments; [uloop_print_idx] only prints. *)
Class uloop_common : Type := {
  loops_ops_t : Type;
  code_t : Type;
  mnem_t : Type;
  loops_t : Type;
  uloop_load : string -> loops_ops_t * code_t * mnem_t;
  uloop_get_loops : loops_ops_t -> list Z -> loops_t;
  uloop_execute : fsm_state -> code_t -> list Z -> list Z;
  uloop_state_machine :
    loops_t -> fsm_state -> bool -> Z -> bool * bool * bool * fsm_state
}.

(** The local variables of [uloop_check] that live across cycles.
    [habcd] is [None] as long as [ha, hb, hc, hd] are unbound: only
    [hidx] is assigned before the loop. *)
Record locals : Type := mkLocals {
  registers : list Z;
  state : fsm_state;
  busy : bool;
  execute : bool;
  habcd : option (Z * Z * Z * Z);
  hidx : list Z;
  hl_loop : list hl_tuple;
  err : Z
}.

Section Driver.

Context {U : uloop_common}.

Definition call_load (file : string) : M (loops_ops_t * code_t * mnem_t) :=
  emit (CallLoad file) ;;; ret (uloop_load file).

Definition call_get_loops (loops_ops : loops_ops_t) (loops_range : list Z)
  : M loops_t :=
  emit (CallGetLoops loops_range) ;;; ret (uloop_get_loops loops_ops loops_range).

Definition call_execute (st : fsm_state) (code : code_t) (regs : list Z)
  : M (list Z) :=
  emit (CallExecute st regs) ;;; ret (uloop_execute st code regs).

Definition call_state_machine (loops : loops_t) (st : fsm_state)
           (verbose : bool) (nb_loops : Z)
  : M (bool * bool * bool * fsm_state) :=
  emit (CallStateMachine st verbose nb_loops) ;;;
  ret (uloop_state_machine loops st verbose nb_loops).

Definition uloop_print_idx (st : fsm_state) (regs : list Z) : M unit :=
  emit (CallPrintIdx st regs).

(** Lines 77-80: [try: ha, hb, hc, hd, hidx = next(hl_loop)] and
    [except StopIteration: pass]. *)
Definition pull (l : locals) : M locals :=
  emit (CallNext (option_map fst (next (hl_loop l)))) ;;;
  match next (hl_loop l) with
  | Some ((ha, hb, hc, hd, hidx'), g') =>
      ret (mkLocals (registers l) (state l) (busy l) (execute l)
                    (Some (ha, hb, hc, hd)) hidx' g' (err l))
  | None => ret l
  end.

(** Line 83: [ua, ub, uc, ud = registers[0:4]]. *)
Definition unpack4 (slice : list Z) : M (Z * Z * Z * Z) :=
  match slice with
  | [ua; ub; uc; ud] => ret (ua, ub, uc, ud)
  | _ => raise ValueError
  end.

(** Reading [ha, hb, hc, hd] at line 84. *)
Definition read_habcd (l : locals) : M (Z * Z * Z * Z) :=
  match habcd l with
  | Some v => ret v
  | None => raise UnboundLocalError
  end.

(** The condition of line 84. *)
Definition differ (hv uv : Z * Z * Z * Z) : bool :=
  let '(ha, hb, hc, hd) := hv in
  let '(ua, ub, uc, ud) := uv in
  negb (ha =? ua) || negb (hb =? ub) || negb (hc =? uc) || negb (hd =? ud).

Definition set_err (l : locals) (e : Z) : locals :=
  mkLocals (registers l) (state l) (busy l) (execute l)
           (habcd l) (hidx l) (hl_loop l) e.

(** Lines 76-89, the body of [if not busy]. *)
Definition check_registers (verbose : bool) (l : locals) : M locals :=
  l <- pull l ;;
  (if verbose then uloop_print_idx (state l) (registers l) else ret tt) ;;;
  '(ua, ub, uc, ud) <- unpack4 (firstn 4 (registers l)) ;;
  '(ha, hb, hc, hd) <- read_habcd l ;;
  if differ (ha, hb, hc, hd) (ua, ub, uc, ud) then
    (if verbose then
       emit PrintError ;;;
       emit (PrintHighLevel ha hb hc hd) ;;;
       emit (PrintULoop ua ub uc ud)
     else ret tt) ;;;
    ret (set_err l (err l + 1))
  else ret l.

(** Lines 72-91: one pass through the body of the cycle loop.  The
    boolean is [end]: whether the loop breaks after this pass. *)
Definition cycle (code : code_t) (loops : loops_t) (verbose : bool)
           (l : locals) : M (locals * bool) :=
  new_registers <- call_execute (state l) code (registers l) ;;
  '(execute, end_, busy, state) <-
     call_state_machine loops (state l) verbose NB_LOOPS ;;
  let registers := if execute then new_registers else registers l in
  let l := mkLocals registers state busy execute
                    (habcd l) (hidx l) (hl_loop l) (err l) in
  l <- (if negb busy then check_registers verbose l else ret l) ;;
  ret (l, end_).

(** Lines 71-91: [for i in range(0,1000)], over the items that are
    left. *)
Fixpoint cycles (code : code_t) (loops : loops_t) (verbose : bool)
         (rng : list Z) (l : locals) : M locals :=
  match rng with
  | [] => ret l
  | _ :: rest =>
      '(l, end_) <- cycle code loops verbose l ;;
      if end_ : bool then ret l else cycles code loops verbose rest l
  end.

(** Lines 61-70: the locals on entry to the cycle loop. *)
Definition initial_locals (nb_iter iter_stride one_stride : Z) : locals :=
  let registers := [0; 0; 0; 0; nb_iter; iter_stride; one_stride] in
  let err := 0 in
  let idx := fold_left (fun idx _ => idx ++ [0]) (range 0 NB_LOOPS) [] in
  let state := (0, 0, 0, idx) in
  let busy := false in
  let execute := true in
  let hidx := [0; 0; 0; 0; 0; 0] in
  let hl_loop := iterate_hl_loop nb_iter iter_stride one_stride in
  mkLocals registers state busy execute None hidx hl_loop err.

Definition uloop_check (nb_iter iter_stride one_stride : Z) (verbose : bool)
  : M Z :=
  emit (PrintConfig nb_iter iter_stride one_stride) ;;;
  let loops_range := [nb_iter] in
  '(loops_ops, code, mnem) <- call_load "code.yml" ;;
  loops <- call_get_loops loops_ops loops_range ;;
  l <- cycles code loops verbose (range 0 CYCLES)
              (initial_locals nb_iter iter_stride one_stride) ;;
  emit (PrintErrors (err l) (err l >? 0)) ;;;
  ret (err l).

(** ** The sweep at module level *)

Definition get (name : globals -> option Z) : M Z :=
  fun w =>
    match name (vars w) with
    | Some v => (w, inr v)
    | None => (w, inl NameError)
    end.

Definition update (f : globals -> globals) : M unit :=
  fun w => (mkWorld (f (vars w)) (trace w), inr tt).

Definition set_nb_iter (v : Z) : M unit :=
  update (fun g => mkGlobals (Some v) (g_iter_stride g) (g_one_stride g) (g_err g)).
Definition set_iter_stride (v : Z) : M unit :=
  update (fun g => mkGlobals (g_nb_iter g) (Some v) (g_one_stride g) (g_err g)).
Definition set_one_stride (v : Z) : M unit :=
  update (fun g => mkGlobals (g_nb_iter g) (g_iter_stride g) (Some v) (g_err g)).
Definition set_g_err (v : Z) : M unit :=
  update (fun g => mkGlobals (g_nb_iter g) (g_iter_stride g) (g_one_stride g) (Some v)).

(** [err = uloop_check(nb_iter, iter_stride, one_stride, verbose=...)]
    on the globals. *)
Definition check_globals (verbose : bool) : M unit :=
  nb_iter <- get g_nb_iter ;;
  iter_stride <- get g_iter_stride ;;
  one_stride <- get g_one_stride ;;
  e <- uloop_check nb_iter iter_stride one_stride verbose ;;
  set_g_err e.

(** Lines 97-101. *)
Fixpoint inner_loop (strides : list Z) : M unit :=
  match strides with
  | [] => ret tt
  | iter_stride :: rest =>
      set_iter_stride iter_stride ;;;
      set_one_stride 1 ;;;
      check_globals false ;;;
      e <- get g_err ;;
      if e >? 0 then ret tt else inner_loop rest
  end.

(** Lines 96-103. *)
Fixpoint outer_loop (nb_iters : list Z) : M unit :=
  match nb_iters with
  | [] => ret tt
  | nb_iter :: rest =>
      set_nb_iter nb_iter ;;;
      inner_loop [1; 16; 32] ;;;
      e <- get g_err ;;
      if e >? 0 then ret tt else outer_loop rest
  end.

(** Lines 96-105: the script after its definitions. *)
Definition main : M unit :=
  outer_loop [16; 32; 64] ;;;
  e <- get g_err ;;
  if e >? 0 then check_globals true else ret tt.

(** The exit status of the interpreter: 0 when the script runs to its
    end, 1 when an exception is not caught.  The script never calls
    [exit]. *)
Definition exit_status_of {A} (r : exn + A) : Z :=
  match r with
  | inr _ => 0
  | inl _ => 1
  end.

Definition exit_status : Z := exit_status_of (snd (main empty_world)).

(** The global [err] when the script stops: the count of the last run
    of [uloop_check] that returned. *)
Definition final_err : option Z := g_err (vars (fst (main empty_world))).

End Driver.

(** ** The cycle and the sweep, as the design describes them *)

Section AsSpecified.

Context {U : uloop_common}.

(** Step 1: the candidate register file, from the state and the
    registers before the cycle. *)
Definition candidate (code : code_t) (l : locals) : list Z :=
  uloop_execute (state l) code (registers l).

(** Step 2: the state machine, on the state before the cycle. *)
Definition advance (loops : loops_t) (verbose : bool) (l : locals)
  : bool * bool * bool * fsm_state :=
  uloop_state_machine loops (state l) verbose NB_LOOPS.

(** Step 3: the candidate is committed if and only if [execute]. *)
Definition commit (execute : bool) (cand : list Z) (l : locals) : list Z :=
  if execute then cand else registers l.

(** The four accumulators of a register file. *)
Definition accumulators (regs : list Z) : option (Z * Z * Z * Z) :=
  match regs with
  | ua :: ub :: uc :: ud :: _ => Some (ua, ub, uc, ud)
  | _ => None
  end.

(** The locals after one value was asked of the reference generator. *)
Definition pulled (l : locals) : locals :=
  match hl_loop l with
  | (ha, hb, hc, hd, i) :: g =>
      mkLocals (registers l) (state l) (busy l) (execute l)
               (Some (ha, hb, hc, hd)) i g (err l)
  | [] => l
  end.

(** The reference values a comparison uses: those just pulled, or the
    last ones pulled when the generator is exhausted. *)
Definition reference (l : locals) : option (Z * Z * Z * Z) :=
  habcd (pulled l).

(** Step 4, at a cycle that is not busy: one value is pulled, the four
    accumulators are compared with the reference, and a mismatch adds
    one to the error counter. *)
Definition settle (verbose : bool) (l : locals)
  : list event * (exn + locals) :=
  let l' := pulled l in
  let asked :=
    CallNext (option_map fst (next (hl_loop l)))
      :: (if verbose then [CallPrintIdx (state l) (registers l)] else []) in
  match accumulators (registers l), habcd l' with
  | None, _ => (asked, inl ValueError)
  | Some _, None => (asked, inl UnboundLocalError)
  | Some (ua, ub, uc, ud), Some (ha, hb, hc, hd) =>
      if differ (ha, hb, hc, hd) (ua, ub, uc, ud) then
        (asked ++
           (if verbose then
              [PrintError; PrintHighLevel ha hb hc hd; PrintULoop ua ub uc ud]
            else []),
         inr (set_err l' (err l + 1)))
      else (asked, inr l')
  end.

(** The five steps in their order; the boolean of the result is step
    5, whether the loop stops after the cycle. *)
Definition cycle_in_order (code : code_t) (loops : loops_t) (verbose : bool)
           (l : locals) : list event * (exn + (locals * bool)) :=
  let cand := candidate code l in
  let '(ex, en, bz, st) := advance loops verbose l in
  let regs := commit ex cand l in
  let l1 := mkLocals regs st bz ex (habcd l) (hidx l) (hl_loop l) (err l) in
  let '(evs, r) := if bz then ([], inr l1) else settle verbose l1 in
  (CallExecute (state l) (registers l)
     :: CallStateMachine (state l) verbose NB_LOOPS :: evs,
   match r with
   | inr l2 => inr (l2, en)
   | inl e => inl e
   end).

(** The loop: up to [budget] cycles, each one the five steps in their
    order; a cycle whose step 5 says so is the last one, and a cycle
    that raises ends the loop with its exception. *)
Fixpoint cycles_in_order (code : code_t) (loops : loops_t) (verbose : bool)
         (budget : nat) (l : locals) : list event * (exn + locals) :=
  match budget with
  | O => ([], inr l)
  | S budget' =>
      match cycle_in_order code loops verbose l with
      | (evs, inl e) => (evs, inl e)
      | (evs, inr (l', true)) => (evs, inr l')
      | (evs, inr (l', false)) =>
          let '(evs', r) := cycles_in_order code loops verbose budget' l' in
          (evs ++ evs', r)
      end
  end.

(** The matrix of the sweep, [nb_iter] outer and [iter_stride] inner. *)
Definition sweep_matrix : list (Z * Z * Z) :=
  flat_map (fun nb_iter => map (fun iter_stride => (nb_iter, iter_stride, 1))
                               [1; 16; 32])
           [16; 32; 64].

(** Runs the configurations in order, quietly, up to the first one
    whose error count is not zero. *)
Fixpoint first_failing (cfgs : list (Z * Z * Z)) : M (option (Z * Z * Z)) :=
  match cfgs with
  | [] => ret None
  | (nb_iter, iter_stride, one_stride) :: rest =>
      e <- uloop_check nb_iter iter_stride one_stride false ;;
      if e =? 0 then first_failing rest
      else ret (Some (nb_iter, iter_stride, one_stride))
  end.

(** The sweep: the first failing configuration is run once more, with
    the diagnostics on; without one, nothing is run again. *)
Definition sweep_as_specified : M unit :=
  failing <- first_failing sweep_matrix ;;
  match failing with
  | Some (nb_iter, iter_stride, one_stride) =>
      uloop_check nb_iter iter_stride one_stride true ;;; ret tt
  | None => ret tt
  end.

(** The globals after a configuration was run. *)
Definition bound (n s o e : Z) : globals :=
  mkGlobals (Some n) (Some s) (Some o) (Some e).

(** The configurations of one pass of the inner loop, and of the passes
    of the outer loop. *)
Definition row (nb_iter : Z) (strides : list Z) : list (Z * Z * Z) :=
  map (fun iter_stride => (nb_iter, iter_stride, 1)) strides.

Definition rows (nb_iters : list Z) : list (Z * Z * Z) :=
  flat_map (fun nb_iter => row nb_iter [1; 16; 32]) nb_iters.

(** The number of cycles of a run: one call of the state machine
    each. *)
Definition is_cycle (e : event) : bool :=
  match e with
  | CallStateMachine _ _ _ => true
  | _ => false
  end.

Definition cycles_run (evs : list event) : nat :=
  length (filter is_cycle evs).

(** The number of settle points of a run: one pull each. *)
Definition is_pull (e : event) : bool :=
  match e with
  | CallNext _ => true
  | _ => false
  end.

Definition settles_run (evs : list event) : nat :=
  length (filter is_pull evs).

(** The microcode and the loop geometry a run works with. *)
Definition the_code : code_t := snd (fst (uloop_load "code.yml")).

Definition the_loops (nb_iter : Z) : loops_t :=
  uloop_get_loops (fst (fst (uloop_load "code.yml"))) [nb_iter].

(** The cycle loop of the run of a configuration. *)
Definition the_cycles (nb_iter iter_stride one_stride : Z) (verbose : bool)
  : M locals :=
  cycles the_code (the_loops nb_iter) verbose (range 0 CYCLES)
         (initial_locals nb_iter iter_stride one_stride).

(** A comparison can be made: the registers have their accumulators,
    and a reference is bound or can still be pulled. *)
Definition comparable (l : locals) : Prop :=
  (4 <= length (registers l))%nat /\ (habcd l <> None \/ hl_loop l <> []).

(** The state machine decides the same with and without tracing. *)
Definition verbose_blind : Prop :=
  forall loops st nb_loops,
    uloop_state_machine loops st true nb_loops
    = uloop_state_machine loops st false nb_loops.

(** The executor returns a register file with its four accumulators. *)
Definition keeps_accumulators : Prop :=
  forall st code regs,
    (4 <= length regs)%nat -> (4 <= length (uloop_execute st code regs))%nat.

End AsSpecified.

(** ** Collaborators to run the driver with *)

(** Modelled from the spec: [uloop_common] is not among the sources, so
    the loader, the geometry builder, the executor and the state machine
    are those of the design for one loop level.  The register file is
    [a, b, c, d, nb_iter, iter_stride, one_stride]; the executor adds
    [iter_stride] to [a] and [b] and [one_stride] to [c] and [d] and
    never writes positions 4 to 6. *)
Definition spec_execute (st : fsm_state) (code : unit) (regs : list Z)
  : list Z :=
  match regs with
  | [a; b; c; d; nb_iter; iter_stride; one_stride] =>
      [a + iter_stride; b + iter_stride; c + one_stride; d + one_stride;
       nb_iter; iter_stride; one_stride]
  | _ => regs
  end.

(** Modelled from the spec: the state machine of [uloop_common] for one
    loop level.  It commits and settles while the iteration index stays
    within the trip count, and signals [end] at the cycle where the
    index would leave it, with nothing committed: one settle point per
    logical iteration. *)
Definition spec_state_machine (loops : list Z) (st : fsm_state)
           (verbose : bool) (nb_loops : Z) : bool * bool * bool * fsm_state :=
  let '(addr, loop, op, idx) := st in
  let i := hd 0 idx in
  if i + 1 <? hd 0 loops then (true, false, false, (addr, loop, op, [i + 1]))
  else (false, true, false, st).

#[local] Instance spec_common : uloop_common := {|
  loops_ops_t := unit;
  code_t := unit;
  mnem_t := unit;
  loops_t := list Z;
  uloop_load := fun _ => (tt, tt, tt);
  uloop_get_loops := fun _ loops_range => loops_range;
  uloop_execute := spec_execute;
  uloop_state_machine := spec_state_machine
|}.

(** Modelled from the spec: the corrupted executor of the design's
    scenario, with [iter_stride] and [one_stride] swapped. *)
Definition swapped_execute (st : fsm_state) (code : unit) (regs : list Z)
  : list Z :=
  match regs with
  | [a; b; c; d; nb_iter; iter_stride; one_stride] =>
      [a + one_stride; b + one_stride; c + iter_stride; d + iter_stride;
       nb_iter; iter_stride; one_stride]
  | _ => regs
  end.

#[local] Instance swapped_common : uloop_common := {|
  loops_ops_t := unit;
  code_t := unit;
  mnem_t := unit;
  loops_t := list Z;
  uloop_load := fun _ => (tt, tt, tt);
  uloop_get_loops := fun _ loops_range => loops_range;
  uloop_execute := swapped_execute;
  uloop_state_machine := spec_state_machine
|}.

(** Modelled from the spec: a controller that hangs, the state machine
    above without its terminal condition. *)
Definition hung_state_machine (loops : list Z) (st : fsm_state)
           (verbose : bool) (nb_loops : Z) : bool * bool * bool * fsm_state :=
  let '(ex, _, bz, st') := spec_state_machine loops st verbose nb_loops in
  (ex, false, bz, st').

#[local] Instance hung_common : uloop_common := {|
  loops_ops_t := unit;
  code_t := unit;
  mnem_t := unit;
  loops_t := list Z;
  uloop_load := fun _ => (tt, tt, tt);
  uloop_get_loops := fun _ loops_range => loops_range;
  uloop_execute := spec_execute;
  uloop_state_machine := hung_state_machine
|}.


(** ** What a trace shows *)

Section Observations.

Context {U : uloop_common}.

(** The events only a verbose run makes in [uloop_check]. *)
Definition is_diagnostic (e : event) : bool :=
  match e with
  | PrintError | PrintHighLevel _ _ _ _ | PrintULoop _ _ _ _
  | CallPrintIdx _ _ => true
  | _ => false
  end.

(** The [ERROR!!!] lines of a trace. *)
Definition is_error_line (e : event) : bool :=
  match e with
  | PrintError => true
  | _ => false
  end.

Definition errors_printed (evs : list event) : nat :=
  length (filter is_error_line evs).

(** The answers of the generator to the pulls of a trace, in order. *)
Fixpoint pulls (evs : list event) : list (option hl_tuple) :=
  match evs with
  | [] => []
  | CallNext yielded :: rest => yielded :: pulls rest
  | _ :: rest => pulls rest
  end.

(** The states the state machine was called on, in order, and the
    states the executor was called on. *)
Fixpoint fsm_states (evs : list event) : list fsm_state :=
  match evs with
  | [] => []
  | CallStateMachine st _ _ :: rest => st :: fsm_states rest
  | _ :: rest => fsm_states rest
  end.

Fixpoint execute_states (evs : list event) : list fsm_state :=
  match evs with
  | [] => []
  | CallExecute st _ :: rest => st :: execute_states rest
  | _ :: rest => execute_states rest
  end.

(** The register files an event hands over satisfy [P]. *)
Definition carries (P : list Z -> Prop) (e : event) : Prop :=
  match e with
  | CallExecute _ regs | CallPrintIdx _ regs => P regs
  | _ => True
  end.

(** The state after one step of the state machine, whether the step
    signals [end], and the first [k] states from [st] on. *)
Definition fsm_step (loops : loops_t) (verbose : bool) (st : fsm_state)
  : fsm_state :=
  snd (uloop_state_machine loops st verbose NB_LOOPS).

Definition signals_end (loops : loops_t) (verbose : bool) (st : fsm_state)
  : bool :=
  snd (fst (fst (uloop_state_machine loops st verbose NB_LOOPS))).

Fixpoint fsm_orbit (loops : loops_t) (verbose : bool) (k : nat)
         (st : fsm_state) : list fsm_state :=
  match k with
  | O => []
  | S k' => st :: fsm_orbit loops verbose k' (fsm_step loops verbose st)
  end.

(** The register file and the controller state a run starts from. *)
Definition initial_registers (nb_iter iter_stride one_stride : Z) : list Z :=
  registers (initial_locals nb_iter iter_stride one_stride).

Definition initial_state : fsm_state := (0, 0, 0, [0]).



(** Whether a step of the state machine is busy. *)
Definition busy_at (loops : loops_t) (verbose : bool) (st : fsm_state)
  : bool :=
  snd (fst (uloop_state_machine loops st verbose NB_LOOPS)).

(** The pulls of a trace before its first call of the state machine,
    and the pulls after each call of the state machine up to the next
    one: the pulls of each cycle. *)
Fixpoint leading_pulls (evs : list event) : nat :=
  match evs with
  | [] => O
  | CallNext _ :: rest => S (leading_pulls rest)
  | CallStateMachine _ _ _ :: _ => O
  | _ :: rest => leading_pulls rest
  end.

Fixpoint pulls_per_cycle (evs : list event) : list nat :=
  match evs with
  | [] => []
  | CallStateMachine _ _ _ :: rest =>
      leading_pulls rest :: pulls_per_cycle rest
  | _ :: rest => pulls_per_cycle rest
  end.

End Observations.

(** * Properties *)

(** ** Computations that only write *)

Lemma emit_all_nil (w : world) : emit_all w [] = w.
Proof.
  destruct w as [g t]. unfold emit_all. simpl. now rewrite app_nil_r.
Qed.

Lemma emit_all_app (w : world) (xs ys : list event) :
  emit_all (emit_all w xs) ys = emit_all w (xs ++ ys).
Proof.
  unfold emit_all. simpl. now rewrite app_assoc.
Qed.

Lemma runs_ret {A} (a : A) : runs (ret a) [] (inr a).
Proof.
  intro w. unfold ret. now rewrite emit_all_nil.
Qed.

Lemma runs_raise {A} (e : exn) : runs (@raise A e) [] (inl e).
Proof.
  intro w. unfold raise. now rewrite emit_all_nil.
Qed.

Lemma runs_emit (e : event) : runs (emit e) [e] (inr tt).
Proof.
  intro w. reflexivity.
Qed.

Lemma runs_bind {A B} (m : M A) (k : A -> M B) evs a evs' r :
  runs m evs (inr a) -> runs (k a) evs' r -> runs (bind m k) (evs ++ evs') r.
Proof.
  intros Hm Hk w. unfold bind. rewrite Hm, Hk. now rewrite emit_all_app.
Qed.

Lemma runs_bind_raise {A B} (m : M A) (k : A -> M B) evs e :
  runs m evs (inl e) -> runs (bind m k) evs (inl e).
Proof.
  intros Hm w. unfold bind. now rewrite Hm.
Qed.

Lemma runs_out {A} (m : M A) evs r : runs m evs r -> out m = evs.
Proof.
  intro H. unfold out. now rewrite H.
Qed.

Lemma runs_res {A} (m : M A) evs r : runs m evs r -> res m = r.
Proof.
  intro H. unfold res. now rewrite H.
Qed.

Lemma runs_writes_only {A} (m : M A) evs r : runs m evs r -> writes_only m.
Proof.
  intros H w. rewrite (runs_out _ _ _ H), (runs_res _ _ _ H). apply H.
Qed.

Lemma writes_only_runs {A} (m : M A) :
  writes_only m -> runs m (out m) (res m).
Proof.
  intros H w. apply H.
Qed.

(** What a sequence of two writers does. *)
Lemma runs_seq {A B} (m : M A) (k : A -> M B) :
  writes_only m -> (forall a, writes_only (k a)) ->
  runs (bind m k)
       (out m ++ match res m with inr a => out (k a) | inl _ => [] end)
       (match res m with inr a => res (k a) | inl e => inl e end).
Proof.
  intros Hm Hk. apply writes_only_runs in Hm.
  destruct (res m) as [e | a].
  - rewrite app_nil_r. now apply runs_bind_raise.
  - eapply runs_bind; [exact Hm |]. apply writes_only_runs, Hk.
Qed.

(** ** The high-level loop *)

Lemma range_length (lo hi : Z) : length (range lo hi) = Z.to_nat (hi - lo).
Proof.
  unfold range. now rewrite length_map, length_seq.
Qed.

Lemma range_nth (lo hi : Z) (j : nat) :
  (j < Z.to_nat (hi - lo))%nat ->
  nth_error (range lo hi) j = Some (lo + Z.of_nat j).
Proof.
  intro Hj. unfold range. rewrite nth_error_map, nth_error_seq.
  apply Nat.ltb_lt in Hj. now rewrite Hj.
Qed.

Lemma hl_body_length (iter_stride one_stride : Z) (rng : list Z) :
  forall a b c d,
    length (hl_body iter_stride one_stride rng a b c d) = length rng.
Proof.
  induction rng as [| i rest IH]; intros a b c d; simpl; [| rewrite IH];
    reflexivity.
Qed.

Lemma hl_tuple_eq (a a' b b' c c' d d' : Z) (i : list Z) :
  a = a' -> b = b' -> c = c' -> d = d' ->
  Some (a, b, c, d, i) = Some (a', b', c', d', i).
Proof.
  now intros -> -> -> ->.
Qed.

(** The tuple yielded at the item [j] of the range: [j + 1] strides
    away from the accumulators the loop was entered with. *)
Lemma hl_body_nth (iter_stride one_stride : Z) (rng : list Z) :
  forall a b c d j i,
    nth_error rng j = Some i ->
    nth_error (hl_body iter_stride one_stride rng a b c d) j
    = Some (a + (Z.of_nat j + 1) * iter_stride,
            b + (Z.of_nat j + 1) * iter_stride,
            c + (Z.of_nat j + 1) * one_stride,
            d + (Z.of_nat j + 1) * one_stride, [i]).
Proof.
  induction rng as [| i0 rest IH]; intros a b c d j i Hj.
  - now destruct j.
  - destruct j as [| j]; cbn [hl_body nth_error] in *.
    + inversion Hj; subst. change (Z.of_nat 0) with 0.
      apply hl_tuple_eq; ring.
    + rewrite (IH _ _ _ _ _ _ Hj), Nat2Z.inj_succ.
      apply hl_tuple_eq; ring.
Qed.

Lemma iterate_hl_loop_length (nb_iter iter_stride one_stride : Z) :
  length (iterate_hl_loop nb_iter iter_stride one_stride)
  = Z.to_nat (nb_iter - 1).
Proof.
  unfold iterate_hl_loop. rewrite hl_body_length, range_length.
  f_equal. lia.
Qed.

Lemma iterate_hl_loop_nth (nb_iter iter_stride one_stride : Z) (j : nat) :
  (j < Z.to_nat (nb_iter - 1))%nat ->
  nth_error (iterate_hl_loop nb_iter iter_stride one_stride) j
  = Some ((Z.of_nat j + 1) * iter_stride, (Z.of_nat j + 1) * iter_stride,
          (Z.of_nat j + 1) * one_stride, (Z.of_nat j + 1) * one_stride,
          [Z.of_nat j]).
Proof.
  intro Hj. unfold iterate_hl_loop.
  rewrite (hl_body_nth _ _ _ 0 0 0 0 j (0 + Z.of_nat j)).
  - reflexivity.
  - apply range_nth. now replace (nb_iter - 1 - 0) with (nb_iter - 1) by lia.
Qed.

Lemma iterate_hl_loop_nonempty (nb_iter iter_stride one_stride : Z) :
  2 <= nb_iter -> iterate_hl_loop nb_iter iter_stride one_stride <> [].
Proof.
  intros Hn He. apply (f_equal (@length _)) in He.
  rewrite iterate_hl_loop_length in He. cbn in He. lia.
Qed.

Section DriverFacts.

Context {U : uloop_common}.

(** ** One cycle *)

Lemma check_registers_runs (verbose : bool) (l : locals) :
  runs (check_registers verbose l)
       (fst (settle verbose l)) (snd (settle verbose l)).
Proof.
  destruct l as [regs st bz ex h hi g e].
  intro w. unfold check_registers, settle, pull, pulled, read_habcd,
    uloop_print_idx, unpack4, accumulators, set_err, differ, bind, emit, ret,
    raise. simpl.
  destruct g as [| [[[[ha hb] hc] hd] i] g]; simpl;
    destruct verbose; simpl;
    destruct regs as [| ua [| ub [| uc [| ud rest]]]]; simpl;
    try rewrite firstn_nil; simpl;
    rewrite ?emit_all_app; simpl; try reflexivity;
    try (destruct h as [[[[ha' hb'] hc'] hd'] |]; simpl;
         rewrite ?emit_all_app; simpl; try reflexivity);
    match goal with
    | |- context [if ?c then _ else _] =>
        destruct c; simpl; rewrite ?emit_all_app; simpl;
        rewrite ?app_nil_r; reflexivity
    end.
Qed.

Lemma call_execute_runs (st : fsm_state) (code : code_t) (regs : list Z) :
  runs (call_execute st code regs)
       [CallExecute st regs] (inr (uloop_execute st code regs)).
Proof.
  intro w. reflexivity.
Qed.

Lemma call_state_machine_runs (loops : loops_t) (st : fsm_state)
      (verbose : bool) (nb_loops : Z) :
  runs (call_state_machine loops st verbose nb_loops)
       [CallStateMachine st verbose nb_loops]
       (inr (uloop_state_machine loops st verbose nb_loops)).
Proof.
  intro w. reflexivity.
Qed.

Lemma cycle_runs (code : code_t) (loops : loops_t) (verbose : bool)
      (l : locals) :
  runs (cycle code loops verbose l)
       (fst (cycle_in_order code loops verbose l))
       (snd (cycle_in_order code loops verbose l)).
Proof.
  unfold cycle, cycle_in_order, candidate, advance, commit.
  assert (Hex := call_execute_runs (state l) code (registers l)).
  assert (Hsm := call_state_machine_runs loops (state l) verbose NB_LOOPS).
  destruct (uloop_state_machine loops (state l) verbose NB_LOOPS)
    as [[[ex en] bz] st] eqn:Esm.
  set (l1 := mkLocals _ st bz ex _ _ _ _).
  destruct bz; simpl.
  - apply (runs_bind _ _ [_] _ [_] _ Hex).
    apply (runs_bind _ _ [_] _ [] _ Hsm). simpl.
    apply (runs_bind _ _ [] _ [] _ (runs_ret _)). apply runs_ret.
  - pose proof (check_registers_runs verbose l1) as Hc.
    destruct (settle verbose l1) as [evs [e | l2]]; simpl in *.
    + apply (runs_bind _ _ [_] _ (_ :: evs) _ Hex).
      apply (runs_bind _ _ [_] _ evs _ Hsm). simpl.
      now apply runs_bind_raise.
    + apply (runs_bind _ _ [_] _ (_ :: evs) _ Hex).
      apply (runs_bind _ _ [_] _ evs _ Hsm). simpl.
      rewrite <- (app_nil_r evs).
      apply (runs_bind _ _ evs _ [] _ Hc). apply runs_ret.
Qed.

Lemma reference_eq (l : locals) :
  reference l
  = match hl_loop l with
    | (ha, hb, hc, hd, _) :: _ => Some (ha, hb, hc, hd)
    | [] => habcd l
    end.
Proof.
  unfold reference, pulled.
  now destruct (hl_loop l) as [| [[[[ha hb] hc] hd] i] g].
Qed.

(** What a settle point does to the locals. *)
Lemma settle_facts (verbose : bool) (l : locals) :
  cycles_run (fst (settle verbose l)) = 0%nat
  /\ settles_run (fst (settle verbose l)) = 1%nat
  /\ hd_error (fst (settle verbose l))
     = Some (CallNext (option_map fst (next (hl_loop l))))
  /\ match snd (settle verbose l) with
     | inr l' =>
         registers l' = registers l /\ state l' = state l
         /\ busy l' = busy l /\ execute l' = execute l
         /\ hl_loop l' = tl (hl_loop l)
         /\ habcd l' = reference l
         /\ exists hv uv,
             reference l = Some hv
             /\ accumulators (registers l) = Some uv
             /\ err l' = err l + (if differ hv uv then 1 else 0)
     | inl e =>
         (e = ValueError /\ accumulators (registers l) = None)
         \/ (e = UnboundLocalError /\ habcd l = None /\ hl_loop l = []
             /\ accumulators (registers l) <> None)
     end.
Proof.
  destruct l as [regs st bz ex h hi g e].
  unfold settle, reference, pulled, accumulators, cycles_run, settles_run.
  cbn [registers state busy execute habcd hidx hl_loop err].
  destruct g as [| [[[[ha hb] hc] hd] i] g];
    destruct verbose;
    destruct regs as [| ua [| ub [| uc [| ud rest]]]];
    cbn [registers state busy execute habcd hidx hl_loop err fst snd
         filter is_cycle is_pull length hd_error app tl set_err];
    try (repeat split; now left);
    try (destruct h as [[[[ha' hb'] hc'] hd'] |];
         cbn [registers state busy execute habcd hidx hl_loop err fst snd
              filter is_cycle is_pull length hd_error app tl set_err]);
    try (repeat split; right; repeat split; discriminate);
    match goal with
    | |- context [differ ?a ?b] =>
        destruct (differ a b) eqn:Ed;
        cbn [registers state busy execute habcd hidx hl_loop err fst snd
             filter is_cycle is_pull length hd_error app tl set_err];
        repeat split; eexists; eexists; repeat split;
        rewrite ?Ed; try reflexivity; lia
    end.
Qed.

(** What a cycle does to the locals. *)
Lemma cycle_facts (code : code_t) (loops : loops_t) (verbose : bool)
      (l : locals) :
  let '(ex, en, bz, st) := advance loops verbose l in
  let regs := commit ex (candidate code l) l in
  let C := cycle_in_order code loops verbose l in
  cycles_run (fst C) = 1%nat
  /\ settles_run (fst C) = (if bz then 0%nat else 1%nat)
  /\ match snd C with
     | inr (l', stop) =>
         stop = en /\ registers l' = regs /\ state l' = st
         /\ busy l' = bz /\ execute l' = ex
         /\ (if bz then
              habcd l' = habcd l /\ hidx l' = hidx l
              /\ hl_loop l' = hl_loop l /\ err l' = err l
            else
              hl_loop l' = tl (hl_loop l)
              /\ habcd l' = reference l
              /\ exists hv uv,
                  reference l = Some hv
                  /\ accumulators regs = Some uv
                  /\ err l' = err l + (if differ hv uv then 1 else 0))
     | inl e =>
         bz = false
         /\ ((e = ValueError /\ accumulators regs = None)
             \/ (e = UnboundLocalError /\ habcd l = None /\ hl_loop l = []
                 /\ accumulators regs <> None))
     end.
Proof.
  unfold cycle_in_order.
  destruct (advance loops verbose l) as [[[ex en] bz] st].
  set (l1 := mkLocals _ st bz ex _ _ _ _).
  destruct bz.
  - cbn. repeat split; reflexivity.
  - pose proof (settle_facts verbose l1) as (Hc & Hs & _ & Hr).
    destruct (settle verbose l1) as [evs [e | l2]];
      cbn [fst snd] in *; unfold cycles_run, settles_run in *;
      cbn [filter is_cycle is_pull length]; rewrite Hc, Hs;
      repeat split; try reflexivity; try tauto.
    all: destruct Hr as (? & ? & ? & ? & ? & Hh & Hd);
      rewrite reference_eq in Hh, Hd; rewrite reference_eq; assumption.
Qed.

(** ** The cycle loop *)

Lemma cycles_writes_only (code : code_t) (loops : loops_t) (verbose : bool)
      (rng : list Z) :
  forall l, writes_only (cycles code loops verbose rng l).
Proof.
  induction rng as [| i rest IH]; intro l; simpl.
  - exact (runs_writes_only _ _ _ (runs_ret l)).
  - eapply runs_writes_only, runs_seq.
    + exact (runs_writes_only _ _ _ (cycle_runs code loops verbose l)).
    + intros [l' [|]]; [exact (runs_writes_only _ _ _ (runs_ret l')) | apply IH].
Qed.

(** The loop unfolded by one cycle. *)
Lemma cycles_cons (code : code_t) (loops : loops_t) (verbose : bool)
      (i : Z) (rest : list Z) (l : locals) :
  out (cycles code loops verbose (i :: rest) l)
  = fst (cycle_in_order code loops verbose l)
    ++ match snd (cycle_in_order code loops verbose l) with
       | inr (l', false) => out (cycles code loops verbose rest l')
       | _ => []
       end
  /\ res (cycles code loops verbose (i :: rest) l)
     = match snd (cycle_in_order code loops verbose l) with
       | inr (l', false) => res (cycles code loops verbose rest l')
       | inr (l', true) => inr l'
       | inl e => inl e
       end.
Proof.
  pose proof (cycle_runs code loops verbose l) as Hc.
  assert (runs (cycles code loops verbose (i :: rest) l)
            (out (cycle code loops verbose l)
             ++ match res (cycle code loops verbose l) with
                | inr a =>
                    out (let '(l', end_) := a in
                         if end_ : bool then ret l'
                         else cycles code loops verbose rest l')
                | inl _ => []
                end)
            (match res (cycle code loops verbose l) with
             | inr a =>
                 res (let '(l', end_) := a in
                      if end_ : bool then ret l'
                      else cycles code loops verbose rest l')
             | inl e => inl e
             end)) as H.
  { simpl. apply runs_seq.
    - exact (runs_writes_only _ _ _ Hc).
    - intros [l' [|]];
        [exact (runs_writes_only _ _ _ (runs_ret l'))
        | apply cycles_writes_only]. }
  rewrite (runs_out _ _ _ Hc), (runs_res _ _ _ Hc) in H.
  rewrite (runs_out _ _ _ H), (runs_res _ _ _ H).
  destruct (snd (cycle_in_order code loops verbose l)) as [e | [l' [|]]];
    split; reflexivity.
Qed.

Lemma cycles_nil (code : code_t) (loops : loops_t) (verbose : bool)
      (l : locals) :
  out (cycles code loops verbose [] l) = []
  /\ res (cycles code loops verbose [] l) = inr l.
Proof.
  split; reflexivity.
Qed.

Lemma cycles_run_app (xs ys : list event) :
  cycles_run (xs ++ ys) = (cycles_run xs + cycles_run ys)%nat.
Proof.
  unfold cycles_run. now rewrite filter_app, length_app.
Qed.

Lemma settles_run_app (xs ys : list event) :
  settles_run (xs ++ ys) = (settles_run xs + settles_run ys)%nat.
Proof.
  unfold settles_run. now rewrite filter_app, length_app.
Qed.

(** The error counter never decreases and grows by at most one at each
    settle point; there is at most one settle point in a cycle and at
    most one cycle for each item of the range. *)
Lemma cycles_bounds (code : code_t) (loops : loops_t) (verbose : bool)
      (rng : list Z) :
  forall l,
    (settles_run (out (cycles code loops verbose rng l))
     <= cycles_run (out (cycles code loops verbose rng l)) <= length rng)%nat
    /\ match res (cycles code loops verbose rng l) with
       | inr l' =>
           err l <= err l'
           <= err l
              + Z.of_nat (settles_run (out (cycles code loops verbose rng l)))
       | inl _ => True
       end.
Proof.
  induction rng as [| i rest IH]; intro l.
  - destruct (cycles_nil code loops verbose l) as [Ho Hr].
    rewrite Ho, Hr. cbn. lia.
  - destruct (cycles_cons code loops verbose i rest l) as [Ho Hr].
    rewrite Ho, Hr, cycles_run_app, settles_run_app.
    pose proof (cycle_facts code loops verbose l) as F.
    destruct (advance loops verbose l) as [[[ex en] bz] st].
    cbv zeta in F. destruct F as (Fc & Fs & Fr).
    rewrite Fc, Fs.
    destruct (snd (cycle_in_order code loops verbose l)) as [e | [l' stop]].
    + cbn. destruct bz; lia.
    + destruct Fr as (_ & _ & _ & _ & _ & Fe).
      assert (err l <= err l' <= err l + (if bz then 0 else 1)) as He.
      { destruct bz.
        - destruct Fe as (_ & _ & _ & Fe). lia.
        - destruct Fe as (_ & _ & hv & uv & _ & _ & Fe).
          destruct (differ hv uv); lia. }
      destruct stop.
      * cbn [cycles_run settles_run filter length Nat.add].
        destruct bz; cbn; lia.
      * specialize (IH l'). destruct IH as [IHc IHr].
        split; [destruct bz; cbn [length]; lia |].
        destruct (res (cycles code loops verbose rest l')); [exact I |].
        destruct bz; lia.
Qed.


(** The loop of the source is the loop as specified. *)
Lemma cycles_in_order_run (code : code_t) (loops : loops_t) (verbose : bool)
      (rng : list Z) :
  forall l,
    out (cycles code loops verbose rng l)
    = fst (cycles_in_order code loops verbose (length rng) l)
    /\ res (cycles code loops verbose rng l)
       = snd (cycles_in_order code loops verbose (length rng) l).
Proof.
  induction rng as [| i rest IH]; intro l.
  - split; reflexivity.
  - destruct (cycles_cons code loops verbose i rest l) as [Ho Hr].
    rewrite Ho, Hr. cbn [length cycles_in_order].
    destruct (cycle_in_order code loops verbose l) as [evs [e | [l' [|]]]];
      cbn [fst snd]; rewrite ?app_nil_r; try (split; reflexivity).
    destruct (IH l') as [IHo IHr]. rewrite IHo, IHr.
    destruct (cycles_in_order code loops verbose (length rest) l');
      split; reflexivity.
Qed.

(** With a register file that has its accumulators and a reference to
    compare with, every cycle returns. *)
Lemma cycles_return (code : code_t) (loops : loops_t) (verbose : bool)
      (rng : list Z) :
  keeps_accumulators ->
  forall l, comparable l ->
    exists l', res (cycles code loops verbose rng l) = inr l'.
Proof.
  intro Hk. induction rng as [| i rest IH]; intros l [Hlen Href].
  - now exists l.
  - destruct (cycles_cons code loops verbose i rest l) as [_ Hr].
    rewrite Hr.
    pose proof (cycle_facts code loops verbose l) as F.
    destruct (advance loops verbose l) as [[[ex en] bz] st].
    cbv zeta in F. destruct F as (_ & _ & Fr).
    assert (4 <= length (commit ex (candidate code l) l))%nat as Hlen'.
    { unfold commit, candidate. destruct ex; [now apply Hk | exact Hlen]. }
    assert (accumulators (commit ex (candidate code l) l) <> None) as Hacc.
    { destruct (commit ex (candidate code l) l)
        as [| ua [| ub [| uc [| ud rest']]]]; cbn in Hlen'; try lia.
      discriminate. }
    destruct (snd (cycle_in_order code loops verbose l)) as [e | [l' stop]].
    + exfalso. destruct Fr as (_ & [(_ & Hnone) | (_ & Hh & Hg & _)]).
      * now apply Hacc.
      * destruct Href as [Href | Href]; [now apply Href | now apply Href].
    + destruct stop; [now exists l' |].
      apply IH.
      destruct Fr as (_ & Hregs & _ & _ & _ & Fe).
      split; [now rewrite Hregs |].
      destruct bz.
      * destruct Fe as (Hh & _ & Hg & _). now rewrite Hh, Hg.
      * destruct Fe as (_ & Hh & hv & _ & Hv & _).
        left. rewrite Hh, Hv. discriminate.
Qed.

(** With nothing to pull and nothing pulled before, the counter stays
    where it is until the first settle point, which raises. *)
Lemma cycles_nothing_to_pull (code : code_t) (loops : loops_t)
      (verbose : bool) (rng : list Z) :
  forall l, habcd l = None -> hl_loop l = [] ->
    match res (cycles code loops verbose rng l) with
    | inr l' =>
        err l' = err l
        /\ settles_run (out (cycles code loops verbose rng l)) = 0%nat
    | inl e =>
        (e = ValueError \/ e = UnboundLocalError)
        /\ settles_run (out (cycles code loops verbose rng l)) = 1%nat
    end.
Proof.
  induction rng as [| i rest IH]; intros l Hh Hg.
  - cbn. now split.
  - destruct (cycles_cons code loops verbose i rest l) as [Ho Hr].
    rewrite Ho, Hr, settles_run_app.
    pose proof (cycle_facts code loops verbose l) as F.
    destruct (advance loops verbose l) as [[[ex en] bz] st].
    cbv zeta in F. destruct F as (_ & Fs & Fr). rewrite Fs.
    destruct (snd (cycle_in_order code loops verbose l)) as [e | [l' stop]].
    + destruct Fr as (-> & [(-> & _) | (-> & _)]); cbn; auto.
    + destruct Fr as (_ & _ & _ & _ & _ & Fe).
      destruct bz.
      * destruct Fe as (Hh' & _ & Hg' & He').
        destruct stop; [cbn; now split |].
        specialize (IH l'). rewrite Hh', Hg' in IH.
        specialize (IH Hh Hg).
        destruct (res (cycles code loops verbose rest l')).
        -- exact IH.
        -- cbn. destruct IH. split; congruence.
      * exfalso. destruct Fe as (_ & _ & hv & _ & Hv & _).
        rewrite reference_eq, Hg, Hh in Hv. discriminate.
Qed.

(** The outcome of a settle point and of a cycle is that of the quiet
    run when the state machine is blind to [verbose]. *)
Lemma settle_verbose (l : locals) :
  snd (settle true l) = snd (settle false l).
Proof.
  unfold settle.
  destruct (accumulators (registers l)) as [[[[ua ub] uc] ud] |];
    [| reflexivity].
  destruct (habcd (pulled l)) as [[[[ha hb] hc] hd] |]; [| reflexivity].
  now destruct (differ _ _).
Qed.

Lemma cycle_verbose (code : code_t) (loops : loops_t) (l : locals) :
  verbose_blind ->
  snd (cycle_in_order code loops true l)
  = snd (cycle_in_order code loops false l).
Proof.
  intro Hv. unfold cycle_in_order, advance. rewrite Hv.
  destruct (uloop_state_machine loops (state l) false NB_LOOPS)
    as [[[ex en] bz] st].
  destruct bz; [reflexivity |].
  set (l1 := mkLocals _ st false ex _ _ _ _).
  pose proof (settle_verbose l1) as Hs.
  destruct (settle true l1) as [evs r], (settle false l1) as [evs' r'].
  cbn in *. now subst.
Qed.

Lemma cycles_verbose (code : code_t) (loops : loops_t) (rng : list Z) :
  verbose_blind ->
  forall l,
    res (cycles code loops true rng l) = res (cycles code loops false rng l).
Proof.
  intro Hv. induction rng as [| i rest IH]; intro l.
  - reflexivity.
  - destruct (cycles_cons code loops true i rest l) as [_ Hr].
    destruct (cycles_cons code loops false i rest l) as [_ Hr'].
    rewrite Hr, Hr', (cycle_verbose code loops l Hv).
    destruct (snd (cycle_in_order code loops false l)) as [e | [l' [|]]];
      auto.
Qed.

(** ** A run *)

Lemma uloop_check_runs (nb_iter iter_stride one_stride : Z) (verbose : bool) :
  runs (uloop_check nb_iter iter_stride one_stride verbose)
       (PrintConfig nb_iter iter_stride one_stride
          :: CallLoad "code.yml" :: CallGetLoops [nb_iter]
          :: out (the_cycles nb_iter iter_stride one_stride verbose)
          ++ match res (the_cycles nb_iter iter_stride one_stride verbose) with
             | inr l => [PrintErrors (err l) (err l >? 0)]
             | inl _ => []
             end)
       (match res (the_cycles nb_iter iter_stride one_stride verbose) with
        | inr l => inr (err l)
        | inl e => inl e
        end).
Proof.
  unfold uloop_check, the_cycles, the_code, the_loops, call_load,
    call_get_loops.
  apply (runs_bind _ _ [_] tt _ _ (runs_emit _)).
  destruct (uloop_load "code.yml") as [[loops_ops code] mnem] eqn:El.
  cbn [fst snd].
  eapply (runs_bind _ _ [_] _ (_ :: _)).
  { apply (runs_bind _ _ [_] tt [] _ (runs_emit _)). apply runs_ret. }
  cbn beta iota.
  eapply (runs_bind _ _ [_] _ _).
  { apply (runs_bind _ _ [_] tt [] _ (runs_emit _)). apply runs_ret. }
  set (c := cycles code _ verbose _ _).
  pose proof (writes_only_runs c (cycles_writes_only _ _ _ _ _)) as Hc.
  destruct (res c) as [e | l].
  - rewrite app_nil_r. now apply runs_bind_raise.
  - eapply runs_bind; [exact Hc |].
    apply (runs_bind _ _ [_] tt [] _ (runs_emit _)). apply runs_ret.
Qed.

Lemma uloop_check_writes_only (nb_iter iter_stride one_stride : Z)
      (verbose : bool) :
  writes_only (uloop_check nb_iter iter_stride one_stride verbose).
Proof.
  exact (runs_writes_only _ _ _ (uloop_check_runs _ _ _ _)).
Qed.

Lemma uloop_check_res (nb_iter iter_stride one_stride : Z) (verbose : bool) :
  res (uloop_check nb_iter iter_stride one_stride verbose)
  = match res (the_cycles nb_iter iter_stride one_stride verbose) with
    | inr l => inr (err l)
    | inl e => inl e
    end.
Proof.
  exact (runs_res _ _ _ (uloop_check_runs _ _ _ _)).
Qed.

Lemma uloop_check_out (nb_iter iter_stride one_stride : Z) (verbose : bool) :
  out (uloop_check nb_iter iter_stride one_stride verbose)
  = PrintConfig nb_iter iter_stride one_stride
      :: CallLoad "code.yml" :: CallGetLoops [nb_iter]
      :: out (the_cycles nb_iter iter_stride one_stride verbose)
      ++ match res (the_cycles nb_iter iter_stride one_stride verbose) with
         | inr l => [PrintErrors (err l) (err l >? 0)]
         | inl _ => []
         end.
Proof.
  exact (runs_out _ _ _ (uloop_check_runs _ _ _ _)).
Qed.

Lemma budget_length : length (range 0 CYCLES) = 1000%nat.
Proof.
  now rewrite range_length.
Qed.

(** The cycles and the settle points of a run are those of its loop. *)
Lemma uloop_check_counts (nb_iter iter_stride one_stride : Z)
      (verbose : bool) :
  cycles_run (out (uloop_check nb_iter iter_stride one_stride verbose))
  = cycles_run (out (the_cycles nb_iter iter_stride one_stride verbose))
  /\ settles_run (out (uloop_check nb_iter iter_stride one_stride verbose))
     = settles_run (out (the_cycles nb_iter iter_stride one_stride verbose)).
Proof.
  rewrite uloop_check_out.
  change (?a :: ?b :: ?c :: ?t) with ([a; b; c] ++ t).
  rewrite !cycles_run_app, !settles_run_app.
  destruct (res (the_cycles nb_iter iter_stride one_stride verbose));
    cbn; lia.
Qed.

Lemma uloop_check_bounds (nb_iter iter_stride one_stride : Z)
      (verbose : bool) :
  match res (uloop_check nb_iter iter_stride one_stride verbose) with
  | inr e => 0 <= e <= 1000
  | inl _ => True
  end.
Proof.
  rewrite uloop_check_res. unfold the_cycles.
  pose proof (cycles_bounds the_code (the_loops nb_iter) verbose
                (range 0 CYCLES)
                (initial_locals nb_iter iter_stride one_stride)) as [Hc Hr].
  rewrite budget_length in Hc.
  destruct (res (cycles _ _ _ _ _)); [exact I |].
  change (err (initial_locals nb_iter iter_stride one_stride)) with 0 in Hr.
  lia.
Qed.

Lemma initial_locals_comparable (nb_iter iter_stride one_stride : Z) :
  2 <= nb_iter -> comparable (initial_locals nb_iter iter_stride one_stride).
Proof.
  intro Hn. split.
  - cbn. lia.
  - right. now apply iterate_hl_loop_nonempty.
Qed.

(** A run over at least two iterations returns its count. *)
Lemma uloop_check_returns (nb_iter iter_stride one_stride : Z)
      (verbose : bool) :
  keeps_accumulators -> 2 <= nb_iter ->
  exists e, res (uloop_check nb_iter iter_stride one_stride verbose) = inr e.
Proof.
  intros Hk Hn. rewrite uloop_check_res. unfold the_cycles.
  destruct (cycles_return the_code (the_loops nb_iter) verbose
              (range 0 CYCLES) Hk _
              (initial_locals_comparable nb_iter iter_stride one_stride Hn))
    as [l Hl].
  rewrite Hl. now exists (err l).
Qed.

Lemma uloop_check_verbose (nb_iter iter_stride one_stride : Z) :
  verbose_blind ->
  res (uloop_check nb_iter iter_stride one_stride true)
  = res (uloop_check nb_iter iter_stride one_stride false).
Proof.
  intro Hv. rewrite !uloop_check_res. unfold the_cycles.
  now rewrite (cycles_verbose _ _ _ Hv).
Qed.

End DriverFacts.

(** ** The sweep *)

Section SweepFacts.

Context {U : uloop_common}.

Lemma first_failing_writes_only (cfgs : list (Z * Z * Z)) :
  writes_only (first_failing cfgs).
Proof.
  induction cfgs as [| [[n s] o] rest IH]; cbn [first_failing].
  - exact (runs_writes_only _ _ _ (runs_ret None)).
  - eapply runs_writes_only, runs_seq.
    + apply uloop_check_writes_only.
    + intro e. destruct (e =? 0); [exact IH |].
      exact (runs_writes_only _ _ _ (runs_ret _)).
Qed.

Lemma first_failing_cons (n s o : Z) (rest : list (Z * Z * Z)) :
  out (first_failing ((n, s, o) :: rest))
  = out (uloop_check n s o false)
    ++ match res (uloop_check n s o false) with
       | inr e => if e =? 0 then out (first_failing rest) else []
       | inl _ => []
       end
  /\ res (first_failing ((n, s, o) :: rest))
     = match res (uloop_check n s o false) with
       | inr e => if e =? 0 then res (first_failing rest)
                  else inr (Some (n, s, o))
       | inl x => inl x
       end.
Proof.
  assert (runs (first_failing ((n, s, o) :: rest))
            (out (uloop_check n s o false)
             ++ match res (uloop_check n s o false) with
                | inr e =>
                    out (if e =? 0 then first_failing rest
                         else ret (Some (n, s, o)))
                | inl _ => []
                end)
            (match res (uloop_check n s o false) with
             | inr e =>
                 res (if e =? 0 then first_failing rest
                      else ret (Some (n, s, o)))
             | inl x => inl x
             end)) as H.
  { cbn [first_failing]. apply runs_seq.
    - apply uloop_check_writes_only.
    - intro e. destruct (e =? 0); [apply first_failing_writes_only |].
      exact (runs_writes_only _ _ _ (runs_ret _)). }
  rewrite (runs_out _ _ _ H), (runs_res _ _ _ H).
  destruct (res (uloop_check n s o false)) as [x | e]; [now split |].
  destruct (e =? 0); now split.
Qed.

Lemma first_failing_app (xs ys : list (Z * Z * Z)) :
  out (first_failing (xs ++ ys))
  = out (first_failing xs)
    ++ match res (first_failing xs) with
       | inr None => out (first_failing ys)
       | _ => []
       end
  /\ res (first_failing (xs ++ ys))
     = match res (first_failing xs) with
       | inr None => res (first_failing ys)
       | r => r
       end.
Proof.
  induction xs as [| [[n s] o] rest [IHo IHr]].
  - now split.
  - cbn [app].
    destruct (first_failing_cons n s o (rest ++ ys)) as [Ho Hr].
    destruct (first_failing_cons n s o rest) as [Ho' Hr'].
    rewrite Ho, Hr, Ho', Hr'.
    destruct (res (uloop_check n s o false)) as [x | e].
    + now rewrite !app_nil_r.
    + destruct (e =? 0).
      * rewrite IHo, IHr. now rewrite app_assoc.
      * now rewrite !app_nil_r.
Qed.

Lemma check_globals_run (verbose : bool) (w : world) (n s o : Z) :
  g_nb_iter (vars w) = Some n ->
  g_iter_stride (vars w) = Some s ->
  g_one_stride (vars w) = Some o ->
  check_globals verbose w
  = match res (uloop_check n s o verbose) with
    | inr e =>
        (mkWorld (bound n s o e)
                 (trace w ++ out (uloop_check n s o verbose)), inr tt)
    | inl x => (emit_all w (out (uloop_check n s o verbose)), inl x)
    end.
Proof.
  intros Hn Hs Ho. unfold check_globals, bind, get.
  rewrite Hn, Hs, Ho, (uloop_check_writes_only n s o verbose w).
  destruct (res (uloop_check n s o verbose)) as [x | e]; [reflexivity |].
  unfold set_g_err, update, emit_all, bound. cbn. now rewrite Hn, Hs, Ho.
Qed.

(** The inner loop runs its row up to the first failing configuration
    and leaves that configuration and its count in the globals. *)
Lemma inner_loop_run (strides : list Z) (n : Z) :
  forall w, g_nb_iter (vars w) = Some n ->
    exists g',
      inner_loop strides w
      = (mkWorld g' (trace w ++ out (first_failing (row n strides))),
         match res (first_failing (row n strides)) with
         | inl x => inl x
         | inr _ => inr tt
         end)
      /\ match res (first_failing (row n strides)) with
         | inr (Some (n', s', o')) => exists e, 0 < e /\ g' = bound n' s' o' e
         | inr None =>
             g_nb_iter g' = Some n /\ (strides = [] \/ g_err g' = Some 0)
         | inl _ => True
         end.
Proof.
  induction strides as [| s rest IH]; intros w Hn.
  - exists (vars w). split.
    + destruct w as [g t]. cbn. now rewrite app_nil_r.
    + cbn. auto.
  - cbn [inner_loop row map].
    destruct (first_failing_cons n s 1 (row n rest)) as [Ho Hr].
    fold (row n rest). rewrite Ho, Hr.
    unfold bind at 1 2 3. unfold set_iter_stride at 1, set_one_stride at 1,
      update. cbn [vars trace g_nb_iter g_iter_stride g_one_stride g_err].
    rewrite (check_globals_run false _ n s 1) by (cbn; auto).
    cbn [vars trace].
    pose proof (uloop_check_bounds n s 1 false) as Hb.
    destruct (res (uloop_check n s 1 false)) as [x | e].
    + eexists. split; [| exact I]. unfold emit_all. cbn.
      now rewrite app_nil_r.
    + unfold bind, get. cbn [vars g_err bound].
      destruct (e >? 0) eqn:Ee.
      * assert ((e =? 0) = false) as -> by lia.
        exists (bound n s 1 e). split.
        -- unfold ret. now rewrite app_nil_r.
        -- exists e. split; [lia | reflexivity].
      * assert (e = 0) as -> by lia. cbn [Z.eqb].
        destruct (IH (mkWorld (bound n s 1 0)
                              (trace w ++ out (uloop_check n s 1 false))))
          as (g' & Hrun & Hg'); [reflexivity |].
        exists g'. split.
        -- rewrite Hrun. cbn [trace]. now rewrite app_assoc.
        -- destruct (res (first_failing (row n rest))) as [x | [[[n' s'] o'] |]];
             auto.
           destruct Hg' as [Hn' [-> | He]]; split; auto.
           right. cbn in Hrun. now inversion Hrun.
Qed.

(** The outer loop runs the rows up to the first failing
    configuration. *)
Lemma outer_loop_run (nb_iters : list Z) :
  forall w,
    exists g',
      outer_loop nb_iters w
      = (mkWorld g' (trace w ++ out (first_failing (rows nb_iters))),
         match res (first_failing (rows nb_iters)) with
         | inl x => inl x
         | inr _ => inr tt
         end)
      /\ match res (first_failing (rows nb_iters)) with
         | inr (Some (n', s', o')) => exists e, 0 < e /\ g' = bound n' s' o' e
         | inr None => nb_iters = [] \/ g_err g' = Some 0
         | inl _ => True
         end.
Proof.
  induction nb_iters as [| n rest IH]; intro w.
  - exists (vars w). split.
    + destruct w as [g t]. cbn. now rewrite app_nil_r.
    + cbn. auto.
  - cbn [outer_loop rows flat_map]. fold (rows rest).
    destruct (first_failing_app (row n [1; 16; 32]) (rows rest)) as [Ho Hr].
    rewrite Ho, Hr.
    unfold bind at 1 2. unfold set_nb_iter at 1, update.
    destruct (inner_loop_run [1; 16; 32] n
                (mkWorld (mkGlobals (Some n) (g_iter_stride (vars w))
                                    (g_one_stride (vars w)) (g_err (vars w)))
                         (trace w)))
      as (g1 & Hrun & Hg1); [reflexivity |].
    rewrite Hrun. cbn [trace].
    destruct (res (first_failing (row n [1; 16; 32])))
      as [x | [[[n' s'] o'] |]].
    + exists g1. split; [now rewrite app_nil_r | exact I].
    + destruct Hg1 as (e & He & ->).
      exists (bound n' s' o' e). split.
      * unfold bind, get. cbn [vars g_err bound].
        assert ((e >? 0) = true) as -> by lia.
        unfold ret. now rewrite app_nil_r.
      * now exists e.
    + destruct Hg1 as [_ [Hnil | He]]; [discriminate |].
      unfold bind, get. cbn [vars]. rewrite He. cbn [Z.gtb Z.compare].
      destruct (IH (mkWorld g1
                      (trace w ++ out (first_failing (row n [1; 16; 32])))))
        as (g' & Hrun' & Hg').
      exists g'. split.
      * rewrite Hrun'. cbn [trace]. now rewrite app_assoc.
      * destruct (res (first_failing (rows rest))) as [x | [[[n' s'] o'] |]];
          auto.
        destruct Hg' as [-> | He']; [| now right].
        right. cbn in Hrun'. inversion Hrun'. now subst.
Qed.

Lemma sweep_as_specified_runs :
  runs sweep_as_specified
       (out (first_failing sweep_matrix)
        ++ match res (first_failing sweep_matrix) with
           | inr (Some (n, s, o)) => out (uloop_check n s o true)
           | _ => []
           end)
       (match res (first_failing sweep_matrix) with
        | inr (Some (n, s, o)) =>
            match res (uloop_check n s o true) with
            | inr _ => inr tt
            | inl x => inl x
            end
        | inr None => inr tt
        | inl x => inl x
        end).
Proof.
  unfold sweep_as_specified.
  pose proof (writes_only_runs _ (first_failing_writes_only sweep_matrix))
    as HF.
  destruct (res (first_failing sweep_matrix)) as [x | [[[n s] o] |]].
  - rewrite app_nil_r. now apply runs_bind_raise.
  - eapply runs_bind; [exact HF |]. cbn beta iota.
    pose proof (writes_only_runs _ (uloop_check_writes_only n s o true))
      as Hc.
    destruct (res (uloop_check n s o true)) as [x | e].
    + now apply runs_bind_raise.
    + rewrite <- (app_nil_r (out _)).
      eapply runs_bind; [exact Hc | apply runs_ret].
  - eapply runs_bind; [exact HF | apply runs_ret].
Qed.

(** The script does what the sweep is specified to do: the same events
    in the same order, and the same outcome. *)
Lemma main_run (w : world) :
  exists g',
    main w
    = (mkWorld g' (trace w ++ out sweep_as_specified), res sweep_as_specified).
Proof.
  rewrite (runs_out _ _ _ sweep_as_specified_runs),
    (runs_res _ _ _ sweep_as_specified_runs).
  unfold main. unfold bind at 1.
  destruct (outer_loop_run [16; 32; 64] w) as (g1 & Hrun & Hg1).
  change (rows [16; 32; 64]) with sweep_matrix in *.
  rewrite Hrun.
  destruct (res (first_failing sweep_matrix)) as [x | [[[n s] o] |]].
  - exists g1. now rewrite app_nil_r.
  - destruct Hg1 as (e & He & ->).
    unfold bind, get. cbn [vars g_err bound].
    assert ((e >? 0) = true) as -> by lia.
    rewrite (check_globals_run true _ n s o) by reflexivity.
    cbn [trace].
    destruct (res (uloop_check n s o true)) as [x | e'].
    + eexists. unfold emit_all. cbn [vars trace].
      now rewrite app_assoc.
    + eexists. now rewrite app_assoc.
  - destruct Hg1 as [Hnil | He]; [discriminate |].
    unfold bind, get. cbn [vars]. rewrite He. cbn [Z.gtb Z.compare].
    exists g1. unfold ret. now rewrite app_nil_r.
Qed.

(** No configuration of the sweep has fewer than two iterations. *)
Lemma sweep_matrix_iterations :
  Forall (fun c => 2 <= fst (fst c)) sweep_matrix.
Proof.
  repeat constructor; cbn; lia.
Qed.

Lemma first_failing_returns (cfgs : list (Z * Z * Z)) :
  keeps_accumulators ->
  Forall (fun c => 2 <= fst (fst c)) cfgs ->
  exists r,
    res (first_failing cfgs) = inr r
    /\ match r with
       | Some c => 2 <= fst (fst c)
       | None => True
       end.
Proof.
  intros Hk. induction 1 as [| [[n s] o] rest Hn _ IH].
  - now exists None.
  - destruct (first_failing_cons n s o rest) as [_ Hr]. rewrite Hr.
    destruct (uloop_check_returns n s o false Hk Hn) as [e He]. rewrite He.
    destruct (e =? 0); [exact IH |].
    now exists (Some (n, s, o)).
Qed.

(** With an executor that keeps the accumulators, the sweep runs to
    its end. *)
Lemma sweep_returns :
  keeps_accumulators -> res sweep_as_specified = inr tt.
Proof.
  intro Hk. rewrite (runs_res _ _ _ sweep_as_specified_runs).
  destruct (first_failing_returns sweep_matrix Hk sweep_matrix_iterations)
    as ([[[n s] o] |] & -> & Hc); [| reflexivity].
  destruct (uloop_check_returns n s o true Hk Hc) as [e ->]. reflexivity.
Qed.

End SweepFacts.

(** ** The collaborators of the design *)

Lemma spec_execute_length (st : fsm_state) (code : unit) (regs : list Z) :
  length (spec_execute st code regs) = length regs.
Proof.
  unfold spec_execute.
  now destruct regs as [| a [| b [| c [| d [| n [| i [| o [| x r]]]]]]]].
Qed.

Lemma spec_keeps_accumulators : keeps_accumulators (U := spec_common).
Proof.
  intros st code regs H. cbn. now rewrite spec_execute_length.
Qed.

Lemma spec_verbose_blind : verbose_blind (U := spec_common).
Proof.
  intros loops st nb_loops. reflexivity.
Qed.

Lemma hung_keeps_accumulators : keeps_accumulators (U := hung_common).
Proof.
  intros st code regs H. cbn. now rewrite spec_execute_length.
Qed.

Lemma swapped_execute_length (st : fsm_state) (code : unit) (regs : list Z) :
  length (swapped_execute st code regs) = length regs.
Proof.
  unfold swapped_execute.
  now destruct regs as [| a [| b [| c [| d [| n [| i [| o [| x r]]]]]]]].
Qed.

Lemma swapped_keeps_accumulators : keeps_accumulators (U := swapped_common).
Proof.
  intros st code regs H. cbn. now rewrite swapped_execute_length.
Qed.

(** * The claims *)

Section Claims.

Context {U : uloop_common}.

(** The body of the cycle loop goes through the five steps in their
    order.  The executor is called first, on the state and the
    registers from before the cycle, and the state machine second, on
    the same state; the registers afterwards are the candidate exactly
    when [execute] holds; at a busy cycle nothing else happens, and at
    any other cycle the next event is the pull from the generator, the
    accumulators after the commit are compared with the reference and a
    mismatch adds one to the counter; the flag the body returns is
    [end]. *)
Lemma cycle_body_in_order (code : code_t) (loops : loops_t)
      (verbose : bool) (l : locals) (w : world) :
  let C := cycle_in_order code loops verbose l in
  let '(ex, en, bz, st) :=
    uloop_state_machine loops (state l) verbose NB_LOOPS in
  let regs :=
    if ex then uloop_execute (state l) code (registers l) else registers l in
  cycle code loops verbose l w = (emit_all w (fst C), snd C)
  /\ (exists evs,
        fst C = CallExecute (state l) (registers l)
                  :: CallStateMachine (state l) verbose NB_LOOPS :: evs
        /\ hd_error evs
           = if bz then None
             else Some (CallNext (option_map fst (next (hl_loop l)))))
  /\ match snd C with
     | inr (l', stop) =>
         stop = en /\ registers l' = regs /\ state l' = st
         /\ hl_loop l' = (if bz then hl_loop l else tl (hl_loop l))
         /\ err l'
            = err l
              + (if bz then 0
                 else match reference l, accumulators regs with
                      | Some hv, Some uv => if differ hv uv then 1 else 0
                      | _, _ => 0
                      end)
     | inl _ => bz = false
     end.
Proof.
  intro C. subst C.
  pose proof (cycle_runs code loops verbose l w) as Hrun.
  pose proof (cycle_facts code loops verbose l) as F.
  unfold advance, commit, candidate in F.
  unfold cycle_in_order, advance, commit, candidate in *.
  destruct (uloop_state_machine loops (state l) verbose NB_LOOPS)
    as [[[ex en] bz] st].
  set (l1 := mkLocals _ st bz ex _ _ _ _) in *.
  cbv zeta in F. destruct F as (_ & _ & Fr).
  split; [exact Hrun |]. split.
  - destruct bz.
    + exists []. now split.
    + pose proof (settle_facts verbose l1) as (_ & _ & Hhd & _).
      destruct (settle verbose l1) as [evs r]. exists evs. now split.
  - destruct (let '(evs, r) := if bz then _ else _ in _) as [evs0 [e | [l' stop]]];
      cbn [snd] in *.
    + tauto.
    + destruct Fr as (-> & -> & -> & _ & _ & Fe). repeat split.
      * destruct bz; tauto.
      * destruct bz.
        -- destruct Fe as (_ & _ & _ & ->). lia.
        -- destruct Fe as (_ & _ & hv & uv & -> & -> & ->). reflexivity.
Qed.

(** C7.  At every cycle that is not busy and where the accumulators
    after the commit differ from the reference values, the cycle returns
    with the error counter one higher, whatever [verbose] is; and the
    outcome of a whole run is the same with and without [verbose] for a
    state machine whose decisions do not depend on it. *)
Theorem mismatch_counted_whatever_verbose :
  (forall code loops verbose l ex en st hv uv,
      uloop_state_machine loops (state l) verbose NB_LOOPS
      = (ex, en, false, st) ->
      accumulators
        (if ex then uloop_execute (state l) code (registers l)
         else registers l) = Some uv ->
      reference l = Some hv ->
      differ hv uv = true ->
      exists l',
        res (cycle code loops verbose l) = inr (l', en)
        /\ err l' = err l + 1)
  /\ (verbose_blind ->
      forall nb_iter iter_stride one_stride,
        res (uloop_check nb_iter iter_stride one_stride true)
        = res (uloop_check nb_iter iter_stride one_stride false)).
Proof.
  split.
  - intros code loops verbose l ex en st hv uv Hsm Hacc Href Hd.
    rewrite (runs_res _ _ _ (cycle_runs code loops verbose l)).
    pose proof (cycle_facts code loops verbose l) as F.
    unfold advance, commit, candidate in F. rewrite Hsm in F.
    cbv zeta in F. destruct F as (_ & _ & Fr).
    destruct (snd (cycle_in_order code loops verbose l)) as [e | [l' stop]].
    + exfalso. destruct Fr as (_ & [(_ & Hn) | (_ & Hh & Hg & _)]).
      * congruence.
      * rewrite reference_eq, Hg, Hh in Href. discriminate.
    + destruct Fr as (-> & _ & _ & _ & _ & _ & _ & hv' & uv' & Hr' & Ha' & He).
      exists l'. split; [reflexivity |].
      assert (hv' = hv) as -> by congruence.
      assert (uv' = uv) as -> by congruence.
      now rewrite Hd in He.
  - intros Hv nb_iter iter_stride one_stride.
    now apply uloop_check_verbose.
Qed.

(** C8.  A pull from the exhausted generator at a cycle that is not
    busy: when reference values were pulled before, they are kept and
    the cycle returns; when none were, the comparison reads [ha] unbound
    and the cycle raises. *)
Theorem exhausted_generator_pull (code : code_t) (loops : loops_t)
        (verbose : bool) (l : locals) (ex en : bool) (st : fsm_state) :
  hl_loop l = [] ->
  uloop_state_machine loops (state l) verbose NB_LOOPS
  = (ex, en, false, st) ->
  accumulators
    (if ex then uloop_execute (state l) code (registers l) else registers l)
  <> None ->
  match habcd l with
  | Some hv =>
      exists l',
        res (cycle code loops verbose l) = inr (l', en)
        /\ habcd l' = Some hv /\ hl_loop l' = []
  | None => res (cycle code loops verbose l) = inl UnboundLocalError
  end.
Proof.
  intros Hg Hsm Hacc.
  rewrite (runs_res _ _ _ (cycle_runs code loops verbose l)).
  pose proof (cycle_facts code loops verbose l) as F.
  unfold advance, commit, candidate in F. rewrite Hsm in F.
  cbv zeta in F. destruct F as (_ & _ & Fr).
  rewrite reference_eq, Hg in Fr.
  destruct (snd (cycle_in_order code loops verbose l)) as [e | [l' stop]].
  - destruct Fr as (_ & [(_ & Hn) | (-> & Hh & _)]).
    + now elim Hacc.
    + now rewrite Hh.
  - destruct Fr as (-> & _ & _ & _ & _ & Ht & Hh & hv & _ & Hv & _).
    rewrite Hv in *. exists l'. now repeat split.
Qed.

(** C10.  The error counter starts at zero; a cycle leaves it as it is
    or adds one to it, and adds one only when it is not busy; a run has
    at most 1000 cycles; the count a run returns is at least zero, at
    most the number of its settle points, and at most 1000. *)
Theorem error_count_bounds (nb_iter iter_stride one_stride : Z)
        (verbose : bool) :
  let run := uloop_check nb_iter iter_stride one_stride verbose in
  err (initial_locals nb_iter iter_stride one_stride) = 0
  /\ (forall code loops l,
        match snd (cycle_in_order code loops verbose l) with
        | inr (l', _) =>
            err l' = err l \/ (err l' = err l + 1 /\ busy l' = false)
        | inl _ => True
        end)
  /\ (settles_run (out run) <= cycles_run (out run) <= 1000)%nat
  /\ match res run with
     | inr e => 0 <= e <= Z.of_nat (settles_run (out run)) /\ e <= 1000
     | inl _ => True
     end.
Proof.
  intro run. subst run. split; [reflexivity |]. split.
  - intros code loops l.
    pose proof (cycle_facts code loops verbose l) as F.
    destruct (advance loops verbose l) as [[[ex en] bz] st].
    cbv zeta in F. destruct F as (_ & _ & Fr).
    destruct (snd (cycle_in_order code loops verbose l)) as [e | [l' stop]];
      [exact I |].
    destruct Fr as (_ & _ & _ & Hb & _ & Fe). destruct bz.
    + left. tauto.
    + destruct Fe as (_ & _ & hv & uv & _ & _ & ->).
      destruct (differ hv uv); [right; split; [reflexivity | exact Hb] |].
      left. lia.
  - destruct (uloop_check_counts nb_iter iter_stride one_stride verbose)
      as [-> ->].
    rewrite uloop_check_res. unfold the_cycles.
    pose proof (cycles_bounds the_code (the_loops nb_iter) verbose
                  (range 0 CYCLES)
                  (initial_locals nb_iter iter_stride one_stride)) as [Hc Hr].
    rewrite budget_length in Hc. split; [exact Hc |].
    destruct (res (cycles _ _ _ _ _)); [exact I |].
    change (err (initial_locals nb_iter iter_stride one_stride)) with 0 in Hr.
    lia.
Qed.


(** C6.  From any world, the script makes the events of the sweep as
    specified, in the same order, and ends as it does: the
    configurations are run quietly in the order of the matrix, [nb_iter]
    outer and [iter_stride] inner with [one_stride] 1, up to the first
    one whose count is not zero; that one is run once more with the
    diagnostics on; without a failing configuration nothing is run
    again. *)
Theorem sweep_runs_as_specified (w : world) :
  trace (fst (main w)) = trace (fst (sweep_as_specified w))
  /\ snd (main w) = snd (sweep_as_specified w)
  /\ sweep_matrix
     = [(16, 1, 1); (16, 16, 1); (16, 32, 1);
        (32, 1, 1); (32, 16, 1); (32, 32, 1);
        (64, 1, 1); (64, 16, 1); (64, 32, 1)].
Proof.
  destruct (main_run w) as [g' ->].
  rewrite (sweep_as_specified_runs w),
    (runs_out _ _ _ sweep_as_specified_runs),
    (runs_res _ _ _ sweep_as_specified_runs).
  repeat split.
Qed.

(** C4, as amended.  With an executor that keeps the accumulators the
    script runs to its end and its exit status is 0, whatever the error
    counts of the sweep and of the diagnostic rerun were. *)
Theorem exit_status_zero :
  keeps_accumulators -> snd (main empty_world) = inr tt /\ exit_status = 0.
Proof.
  intro Hk. unfold exit_status.
  destruct (main_run empty_world) as [g' ->]. cbn [snd].
  rewrite (sweep_returns Hk). now split.
Qed.

(** A run with [nb_iter = 1] never counts an error: it returns 0
    without a settle point, or its first settle point raises. *)
Lemma nb_iter_1_never_counts (iter_stride one_stride : Z) (verbose : bool) :
  let run := uloop_check 1 iter_stride one_stride verbose in
  match res run with
  | inr e => e = 0 /\ settles_run (out run) = 0%nat
  | inl x =>
      (x = ValueError \/ x = UnboundLocalError)
      /\ settles_run (out run) = 1%nat
  end.
Proof.
  intro run. subst run.
  destruct (uloop_check_counts 1 iter_stride one_stride verbose) as [_ ->].
  rewrite uloop_check_res. unfold the_cycles.
  pose proof (cycles_nothing_to_pull the_code (the_loops 1) verbose
                (range 0 CYCLES) (initial_locals 1 iter_stride one_stride)
                eq_refl eq_refl) as H.
  destruct (res (cycles _ _ _ _ _)); exact H.
Qed.

End Claims.

(** C2.  For [nb_iter >= 1] the generator yields [nb_iter - 1] tuples;
    the k-th of them, counted from 1, is [k] strides away from zero, so
    every tuple it yields is one of these and the start at zero is not
    among the iterations it emits. *)
Theorem iterate_hl_loop_yields (nb_iter iter_stride one_stride : Z) :
  1 <= nb_iter ->
  Z.of_nat (length (iterate_hl_loop nb_iter iter_stride one_stride))
  = nb_iter - 1
  /\ (forall k, 1 <= k <= nb_iter - 1 ->
        nth_error (iterate_hl_loop nb_iter iter_stride one_stride)
                  (Z.to_nat (k - 1))
        = Some (k * iter_stride, k * iter_stride,
                k * one_stride, k * one_stride, [k - 1]))
  /\ (forall t, In t (iterate_hl_loop nb_iter iter_stride one_stride) ->
        exists k, 1 <= k <= nb_iter - 1
                  /\ t = (k * iter_stride, k * iter_stride,
                          k * one_stride, k * one_stride, [k - 1])).
Proof.
  intro Hn. split; [| split].
  - rewrite iterate_hl_loop_length. lia.
  - intros k Hk. rewrite iterate_hl_loop_nth by lia.
    replace (Z.of_nat (Z.to_nat (k - 1))) with (k - 1) by lia.
    replace (k - 1 + 1) with k by lia. reflexivity.
  - intros t Ht. apply In_nth_error in Ht. destruct Ht as [j Hj].
    assert (j < Z.to_nat (nb_iter - 1))%nat as Hlt.
    { rewrite <- (iterate_hl_loop_length nb_iter iter_stride one_stride).
      apply nth_error_Some. congruence. }
    rewrite iterate_hl_loop_nth in Hj by exact Hlt.
    exists (Z.of_nat j + 1). split; [lia |].
    replace (Z.of_nat j + 1 - 1) with (Z.of_nat j) by lia. congruence.
Qed.

Lemma iterate_hl_loop_yields_witness :
  1 <= 4
  /\ Z.of_nat (length (iterate_hl_loop 4 5 1)) = 3
  /\ nth_error (iterate_hl_loop 4 5 1) 2 = Some (15, 15, 3, 3, [2]).
Proof.
  split; [lia |].
  destruct (iterate_hl_loop_yields 4 5 1 ltac:(lia)) as (Hlen & Hnth & _).
  split; [exact Hlen |].
  exact (Hnth 3 ltac:(lia)).
Defined.

(** C3.  A run with [nb_iter = 1] never counts an error, whatever the
    collaborators: it returns 0 when it has no settle point, and raises
    at its first settle point otherwise.  With the state machine of the
    design, which settles once per logical iteration, the run has that
    settle point and ends in [UnboundLocalError] instead of returning
    0. *)
Theorem nb_iter_1_run :
  (forall (U : uloop_common) iter_stride one_stride verbose,
      let run := uloop_check 1 iter_stride one_stride verbose in
      match res run with
      | inr e => e = 0 /\ settles_run (out run) = 0%nat
      | inl x =>
          (x = ValueError \/ x = UnboundLocalError)
          /\ settles_run (out run) = 1%nat
      end)
  /\ (forall iter_stride one_stride verbose,
        res (uloop_check (U := spec_common) 1 iter_stride one_stride verbose)
        = inl UnboundLocalError).
Proof.
  split.
  - intros U iter_stride one_stride verbose.
    apply nb_iter_1_never_counts.
  - intros iter_stride one_stride [|]; vm_compute; reflexivity.
Qed.

(** C4, the claim as stated fails: with the strides swapped in the
    executor the sweep stops at (16, 16, 1), the diagnostic rerun
    returns 16 errors, and the exit status of the script is 0. *)
Lemma exit_status_zero_after_errors :
  res (uloop_check (U := swapped_common) 16 16 1 true) = inr 16
  /\ final_err (U := swapped_common) = Some 16
  /\ exit_status (U := swapped_common) = 0.
Proof.
  repeat split; vm_compute; reflexivity.
Qed.

Lemma exit_status_zero_witness :
  keeps_accumulators (U := swapped_common)
  /\ snd (main (U := swapped_common) empty_world) = inr tt
  /\ exit_status (U := swapped_common) = 0.
Proof.
  split; [exact swapped_keeps_accumulators |].
  exact (@exit_status_zero swapped_common swapped_keeps_accumulators).
Defined.



Lemma mismatch_counted_whatever_verbose_witness :
  (exists l',
      res (cycle (U := swapped_common) tt [16] false (initial_locals 16 16 1))
      = inr (l', false)
      /\ err l' = err (initial_locals 16 16 1) + 1)
  /\ res (uloop_check (U := spec_common) 16 1 1 true)
     = res (uloop_check (U := spec_common) 16 1 1 false).
Proof.
  split.
  - exact (proj1 (@mismatch_counted_whatever_verbose swapped_common)
             tt [16] false (initial_locals 16 16 1)
             true false (0, 0, 0, [1]) (16, 16, 1, 1) (1, 1, 16, 16)
             eq_refl eq_refl eq_refl eq_refl).
  - exact (proj2 (@mismatch_counted_whatever_verbose spec_common)
             spec_verbose_blind 16 1 1).
Defined.

Lemma exhausted_generator_pull_witness :
  hl_loop (initial_locals 1 1 1) = []
  /\ @uloop_state_machine spec_common [1]
       (state (initial_locals 1 1 1)) false NB_LOOPS
     = (false, true, false, (0, 0, 0, [0]))
  /\ res (cycle (U := spec_common) tt [1] false (initial_locals 1 1 1))
     = inl UnboundLocalError.
Proof.
  split; [reflexivity |]. split; [reflexivity |].
  exact (@exhausted_generator_pull spec_common tt [1] false
           (initial_locals 1 1 1) false true (0, 0, 0, [0])
           eq_refl eq_refl ltac:(discriminate)).
Defined.

(** * Further properties of the driver *)

(** ** The generator at its edges *)

(** With at most one iteration the generator yields nothing: the range
    of its loop is empty, also for a zero or negative count. *)
Theorem iterate_hl_loop_empty (nb_iter iter_stride one_stride : Z) :
  nb_iter <= 1 -> iterate_hl_loop nb_iter iter_stride one_stride = [].
Proof.
  intro Hn. apply length_zero_iff_nil.
  rewrite iterate_hl_loop_length. lia.
Qed.

Lemma iterate_hl_loop_empty_witness :
  -3 <= 1 /\ iterate_hl_loop (-3) 16 1 = [].
Proof.
  split; [lia |]. exact (iterate_hl_loop_empty (-3) 16 1 ltac:(lia)).
Defined.

(** One more iteration adds one tuple at the end and changes none of
    those before it. *)
Theorem iterate_hl_loop_extends (nb_iter iter_stride one_stride : Z) :
  1 <= nb_iter ->
  iterate_hl_loop (nb_iter + 1) iter_stride one_stride
  = iterate_hl_loop nb_iter iter_stride one_stride
    ++ [(nb_iter * iter_stride, nb_iter * iter_stride,
         nb_iter * one_stride, nb_iter * one_stride, [nb_iter - 1])].
Proof.
  intro Hn. apply nth_error_ext. intro j.
  assert (length (iterate_hl_loop nb_iter iter_stride one_stride)
          = Z.to_nat (nb_iter - 1)) as Hlen
    by apply iterate_hl_loop_length.
  destruct (Nat.lt_ge_cases j (Z.to_nat (nb_iter - 1))) as [Hj | Hj].
  - rewrite nth_error_app1 by (rewrite Hlen; exact Hj).
    rewrite !iterate_hl_loop_nth by lia. reflexivity.
  - rewrite nth_error_app2 by (rewrite Hlen; exact Hj). rewrite Hlen.
    destruct (Nat.eq_dec j (Z.to_nat (nb_iter - 1))) as [-> | Hne].
    + rewrite Nat.sub_diag, iterate_hl_loop_nth by lia.
      cbn [nth_error].
      replace (Z.of_nat (Z.to_nat (nb_iter - 1))) with (nb_iter - 1) by lia.
      replace (nb_iter - 1 + 1) with nb_iter by lia. reflexivity.
    + replace (nth_error _ (j - Z.to_nat (nb_iter - 1))) with (@None hl_tuple).
      * apply nth_error_None. rewrite iterate_hl_loop_length. lia.
      * symmetry. apply nth_error_None. cbn [length]. lia.
Qed.

Lemma iterate_hl_loop_extends_witness :
  1 <= 3
  /\ iterate_hl_loop 4 5 1 = iterate_hl_loop 3 5 1 ++ [(15, 15, 3, 3, [2])].
Proof.
  split; [lia |]. exact (iterate_hl_loop_extends 3 5 1 ltac:(lia)).
Defined.

(** ** What the trace of a cycle shows *)

Lemma pulls_app (xs ys : list event) : pulls (xs ++ ys) = pulls xs ++ pulls ys.
Proof.
  induction xs as [| [] xs IH]; cbn [pulls app]; now rewrite ?IH.
Qed.

Lemma fsm_states_app (xs ys : list event) :
  fsm_states (xs ++ ys) = fsm_states xs ++ fsm_states ys.
Proof.
  induction xs as [| [] xs IH]; cbn [fsm_states app]; now rewrite ?IH.
Qed.

Lemma execute_states_app (xs ys : list event) :
  execute_states (xs ++ ys) = execute_states xs ++ execute_states ys.
Proof.
  induction xs as [| [] xs IH]; cbn [execute_states app]; now rewrite ?IH.
Qed.

Lemma errors_printed_app (xs ys : list event) :
  errors_printed (xs ++ ys) = (errors_printed xs + errors_printed ys)%nat.
Proof.
  unfold errors_printed. now rewrite filter_app, length_app.
Qed.

Section TraceFacts.

Context {U : uloop_common}.

Lemma settle_trace (verbose : bool) (l : locals) :
  pulls (fst (settle verbose l)) = [option_map fst (next (hl_loop l))]
  /\ fsm_states (fst (settle verbose l)) = []
  /\ execute_states (fst (settle verbose l)) = []
  /\ (forall P : list Z -> Prop,
        P (registers l) -> Forall (carries P) (fst (settle verbose l)))
  /\ (verbose = false -> filter is_diagnostic (fst (settle verbose l)) = [])
  /\ (verbose = true ->
      match snd (settle verbose l) with
      | inr l' =>
          err l' = err l + Z.of_nat (errors_printed (fst (settle verbose l)))
      | inl _ => errors_printed (fst (settle verbose l)) = 0%nat
      end).
Proof.
  destruct l as [regs st bz ex h hi g e].
  unfold settle, pulled, accumulators, errors_printed.
  cbn [registers state busy execute habcd hidx hl_loop err].
  destruct g as [| [[[[ha hb] hc] hd] i] g];
    destruct verbose;
    destruct regs as [| ua [| ub [| uc [| ud rest]]]];
    cbn [registers state busy execute habcd hidx hl_loop err fst snd app];
    try (destruct h as [[[[ha' hb'] hc'] hd'] |];
         cbn [registers state busy execute habcd hidx hl_loop err fst snd
              app]);
    try match goal with
      | |- context [differ ?a ?b] =>
          destruct (differ a b);
          cbn [registers state busy execute habcd hidx hl_loop err fst snd
               app set_err]
      end;
    (split; [reflexivity |]; split; [reflexivity |];
     split; [reflexivity |]; split; [| split];
     [ intros P HP;
       repeat first [apply Forall_nil | apply Forall_cons; [cbn; auto |]]
     | intro Hv; try discriminate Hv; reflexivity
     | intro Hv; try discriminate Hv; cbn; lia ]).
Qed.

Lemma cycle_trace (code : code_t) (loops : loops_t) (verbose : bool)
      (l : locals) :
  let '(ex, en, bz, st) := advance loops verbose l in
  let C := cycle_in_order code loops verbose l in
  fsm_states (fst C) = [state l]
  /\ execute_states (fst C) = [state l]
  /\ pulls (fst C)
     = (if bz then [] else [option_map fst (next (hl_loop l))])
  /\ (forall P : list Z -> Prop,
        P (registers l) -> P (commit ex (candidate code l) l) ->
        Forall (carries P) (fst C))
  /\ (verbose = false -> filter is_diagnostic (fst C) = [])
  /\ (verbose = true ->
      match snd C with
      | inr (l', _) => err l' = err l + Z.of_nat (errors_printed (fst C))
      | inl _ => errors_printed (fst C) = 0%nat
      end).
Proof.
  unfold cycle_in_order.
  destruct (advance loops verbose l) as [[[ex en] bz] st].
  set (l1 := mkLocals _ st bz ex _ _ _ _).
  destruct bz.
  - cbn [fst snd fsm_states execute_states pulls filter is_diagnostic].
    repeat split.
    + intros P HP _. repeat constructor. exact HP.
    + intros _. cbn. lia.
  - pose proof (settle_trace verbose l1) as (Hp & Hf & He & HP & Hd & Hc).
    destruct (settle verbose l1) as [evs r]. cbn [fst snd] in *.
    cbn [fsm_states execute_states pulls filter is_diagnostic].
    rewrite Hp, Hf, He. repeat split.
    + intros P HP0 HP1. repeat constructor; [exact HP0 |].
      apply HP. exact HP1.
    + exact Hd.
    + intro Hv. specialize (Hc Hv).
      unfold errors_printed in *. cbn [filter is_error_line].
      destruct r as [e | l2]; exact Hc.
Qed.

End TraceFacts.

(** ** What the trace of the cycle loop shows *)

Lemma firstn_padding {A} (a : A) (s : nat) :
  forall (xs : list A) (n m : nat),
    (s <= n)%nat -> (s <= m)%nat ->
    firstn s (xs ++ repeat a n) = firstn s (xs ++ repeat a m).
Proof.
  induction s as [| s IH]; intros xs n m Hn Hm; [reflexivity |].
  destruct xs as [| x xs].
  - destruct n as [| n]; [lia |]. destruct m as [| m]; [lia |].
    cbn [app repeat firstn]. f_equal.
    apply (IH [] n m); lia.
  - cbn [app firstn]. f_equal. apply IH; lia.
Qed.

Lemma pull_shift (g : list hl_tuple) (s : nat) :
  option_map fst (next g)
    :: firstn s (map Some (tl g) ++ repeat None s)
  = firstn (S s) (map Some g ++ repeat None (S s)).
Proof.
  destruct g as [| t g].
  - reflexivity.
  - cbn [next option_map fst tl map app firstn]. f_equal.
    apply firstn_padding; lia.
Qed.

Section LoopTraceFacts.

Context {U : uloop_common}.

Variables (code : code_t) (loops : loops_t) (verbose : bool).

(** The state machine and the executor are called on the states the
    state machine itself returned, one after the other. *)
Lemma cycles_states (rng : list Z) :
  forall l,
    fsm_states (out (cycles code loops verbose rng l))
    = fsm_orbit loops verbose
                (cycles_run (out (cycles code loops verbose rng l))) (state l)
    /\ execute_states (out (cycles code loops verbose rng l))
       = fsm_states (out (cycles code loops verbose rng l)).
Proof.
  induction rng as [| i rest IH]; intro l.
  - split; reflexivity.
  - destruct (cycles_cons code loops verbose i rest l) as [Ho _].
    rewrite Ho, fsm_states_app, execute_states_app, cycles_run_app.
    pose proof (cycle_facts code loops verbose l) as F.
    pose proof (cycle_trace code loops verbose l) as T.
    unfold fsm_step. unfold advance in *.
    destruct (uloop_state_machine loops (state l) verbose NB_LOOPS)
      as [[[ex en] bz] st] eqn:Esm.
    cbv zeta in F, T. destruct F as (Fc & _ & Fr).
    destruct T as (Tf & Te & _). rewrite Fc, Tf, Te.
    cbn [Nat.add fsm_orbit app]. unfold fsm_step. rewrite Esm. cbn [snd].
    destruct (snd (cycle_in_order code loops verbose l)) as [e | [l' [|]]];
      try (split; reflexivity).
    destruct Fr as (_ & _ & <- & _).
    destruct (IH l') as [IHf IHe]. rewrite IHe, IHf. split; reflexivity.
Qed.

(** No call of the state machine but the last one of a loop signalled
    [end]; a loop that returns has used up its range or ended on that
    signal. *)
Lemma cycles_stop (rest : list Z) :
  forall i l,
    exists pre s,
      fsm_states (out (cycles code loops verbose (i :: rest) l)) = pre ++ [s]
      /\ Forall (fun st => signals_end loops verbose st = false) pre
      /\ match res (cycles code loops verbose (i :: rest) l) with
         | inr _ =>
             cycles_run (out (cycles code loops verbose (i :: rest) l))
             = length (i :: rest)
             \/ signals_end loops verbose s = true
         | inl _ => True
         end.
Proof.
  induction rest as [| i' rest IH]; intros i l;
    match goal with
    | |- context [cycles code loops verbose (i :: ?r) l] =>
        destruct (cycles_cons code loops verbose i r l) as [Ho Hr]
    end;
    rewrite Ho, Hr, fsm_states_app, cycles_run_app;
    pose proof (cycle_facts code loops verbose l) as F;
    pose proof (cycle_trace code loops verbose l) as T;
    unfold signals_end; unfold advance in *;
    destruct (uloop_state_machine loops (state l) verbose NB_LOOPS)
      as [[[ex en] bz] st] eqn:Esm;
    cbv zeta in F, T; destruct F as (Fc & _ & Fr);
    destruct T as (Tf & _); rewrite Fc, Tf;
    destruct (snd (cycle_in_order code loops verbose l)) as [e | [l' [|]]].
  - exists [], (state l). repeat split. constructor.
  - destruct Fr as (<- & _).
    exists [], (state l). repeat split; [constructor |].
    right. now rewrite Esm.
  - exists [], (state l). repeat split; [constructor |]. now left.
  - exists [], (state l). repeat split. constructor.
  - destruct Fr as (<- & _).
    exists [], (state l). repeat split; [constructor |].
    right. now rewrite Esm.
  - destruct Fr as (<- & _).
    destruct (IH i' l') as (pre & s & Hs & Hpre & Hres).
    exists (state l :: pre), s. rewrite Hs. repeat split.
    + constructor; [now rewrite Esm | exact Hpre].
    + destruct (res (cycles code loops verbose (i' :: rest) l'));
        [exact I |].
      destruct Hres as [Hlen | Hend]; [left | now right].
      rewrite Hlen. reflexivity.
Qed.

(** Every register file the loop hands over satisfies what the first
    one satisfies and the executor preserves. *)
Lemma cycles_carry (P : list Z -> Prop) (rng : list Z) :
  (forall st regs, P regs -> P (uloop_execute st code regs)) ->
  forall l, P (registers l) ->
    Forall (carries P) (out (cycles code loops verbose rng l)).
Proof.
  intro Hex. induction rng as [| i rest IH]; intros l HP.
  - constructor.
  - destruct (cycles_cons code loops verbose i rest l) as [Ho _].
    rewrite Ho. apply Forall_app.
    pose proof (cycle_facts code loops verbose l) as F.
    pose proof (cycle_trace code loops verbose l) as T.
    destruct (advance loops verbose l) as [[[ex en] bz] st].
    cbv zeta in F, T. destruct F as (_ & _ & Fr).
    destruct T as (_ & _ & _ & TP & _).
    assert (P (commit ex (candidate code l) l)) as HP'.
    { unfold commit, candidate. destruct ex; [now apply Hex | exact HP]. }
    split; [now apply TP |].
    destruct (snd (cycle_in_order code loops verbose l)) as [e | [l' [|]]];
      try constructor.
    apply IH. destruct Fr as (_ & -> & _). exact HP'.
Qed.

(** The loop asks the generator for its tuples in order, each once,
    and gets nothing once they are used up. *)
Lemma cycles_pulls (rng : list Z) :
  forall l,
    let s := settles_run (out (cycles code loops verbose rng l)) in
    pulls (out (cycles code loops verbose rng l))
    = firstn s (map Some (hl_loop l) ++ repeat None s).
Proof.
  induction rng as [| i rest IH]; intro l; cbv zeta.
  - reflexivity.
  - destruct (cycles_cons code loops verbose i rest l) as [Ho _].
    rewrite Ho, pulls_app, settles_run_app.
    pose proof (cycle_facts code loops verbose l) as F.
    pose proof (cycle_trace code loops verbose l) as T.
    destruct (advance loops verbose l) as [[[ex en] bz] st].
    cbv zeta in F, T. destruct F as (_ & Fs & Fr).
    destruct T as (_ & _ & Tp & _). rewrite Fs, Tp.
    destruct (snd (cycle_in_order code loops verbose l)) as [e | [l' [|]]].
    + destruct bz; [reflexivity |]. apply (pull_shift (hl_loop l) 0).
    + destruct bz; [reflexivity |]. apply (pull_shift (hl_loop l) 0).
    + destruct Fr as (_ & _ & _ & _ & _ & Fe).
      specialize (IH l'). cbv zeta in IH. rewrite IH.
      destruct bz.
      * destruct Fe as (_ & _ & -> & _). reflexivity.
      * destruct Fe as (-> & _). cbn [app Nat.add]. apply pull_shift.
Qed.

End LoopTraceFacts.

Section LoopDiagnostics.

Context {U : uloop_common}.

Variables (code : code_t) (loops : loops_t).

(** A quiet loop makes no diagnostic event. *)
Lemma cycles_quiet (rng : list Z) :
  forall l, filter is_diagnostic (out (cycles code loops false rng l)) = [].
Proof.
  induction rng as [| i rest IH]; intro l.
  - reflexivity.
  - destruct (cycles_cons code loops false i rest l) as [Ho _].
    rewrite Ho, filter_app.
    pose proof (cycle_trace code loops false l) as T.
    destruct (advance loops false l) as [[[ex en] bz] st].
    cbv zeta in T. destruct T as (_ & _ & _ & _ & Tq & _).
    rewrite (Tq eq_refl).
    destruct (snd (cycle_in_order code loops false l)) as [e | [l' [|]]];
      try reflexivity.
    apply IH.
Qed.

(** A verbose loop prints one [ERROR!!!] line for each error it
    counts. *)
Lemma cycles_errors_printed (rng : list Z) :
  forall l,
    match res (cycles code loops true rng l) with
    | inr l' =>
        err l'
        = err l
          + Z.of_nat (errors_printed (out (cycles code loops true rng l)))
    | inl _ => True
    end.
Proof.
  induction rng as [| i rest IH]; intro l.
  - cbn. lia.
  - destruct (cycles_cons code loops true i rest l) as [Ho Hr].
    rewrite Ho, Hr, errors_printed_app.
    pose proof (cycle_trace code loops true l) as T.
    destruct (advance loops true l) as [[[ex en] bz] st].
    cbv zeta in T. destruct T as (_ & _ & _ & _ & _ & Te).
    specialize (Te eq_refl).
    destruct (snd (cycle_in_order code loops true l)) as [e | [l' [|]]];
      [exact I | cbn; lia |].
    specialize (IH l').
    destruct (res (cycles code loops true rest l')); [exact I |]. lia.
Qed.

(** The loop never raises [NameError], and with register files that
    keep their accumulators it never raises [ValueError]. *)
Lemma cycles_raises (verbose : bool) (rng : list Z) :
  forall l,
    match res (cycles code loops verbose rng l) with
    | inr _ => True
    | inl x =>
        x <> NameError
        /\ (keeps_accumulators -> (4 <= length (registers l))%nat ->
            x = UnboundLocalError)
    end.
Proof.
  induction rng as [| i rest IH]; intro l.
  - exact I.
  - destruct (cycles_cons code loops verbose i rest l) as [_ Hr].
    rewrite Hr.
    pose proof (cycle_facts code loops verbose l) as F.
    destruct (advance loops verbose l) as [[[ex en] bz] st].
    cbv zeta in F. destruct F as (_ & _ & Fr).
    assert (keeps_accumulators -> (4 <= length (registers l))%nat ->
            (4 <= length (commit ex (candidate code l) l))%nat) as Hlen.
    { intros Hk Hl. unfold commit, candidate.
      destruct ex; [now apply Hk | exact Hl]. }
    destruct (snd (cycle_in_order code loops verbose l)) as [e | [l' [|]]].
    + destruct Fr as (_ & [(-> & Hnone) | (-> & _)]); split;
        try discriminate; try reflexivity.
      intros Hk Hl. specialize (Hlen Hk Hl). exfalso.
      destruct (commit ex (candidate code l) l)
        as [| ua [| ub [| uc [| ud r]]]]; cbn in Hlen, Hnone;
        try lia; discriminate.
    + exact I.
    + specialize (IH l').
      destruct (res (cycles code loops verbose rest l')) as [x |];
        [| exact I].
      destruct IH as [Hne Hx]. split; [exact Hne |].
      intros Hk Hl. apply Hx; [exact Hk |].
      destruct Fr as (_ & -> & _). now apply Hlen.
Qed.

End LoopDiagnostics.

(** ** The pulls of each cycle *)

Lemma leading_pulls_app (xs ys : list event) :
  fsm_states xs = [] ->
  leading_pulls (xs ++ ys) = (settles_run xs + leading_pulls ys)%nat.
Proof.
  induction xs as [| e xs IH]; intro H; [reflexivity |].
  destruct e; cbn [fsm_states] in H; try discriminate H;
    cbn [app leading_pulls]; rewrite (IH H); reflexivity.
Qed.

Lemma pulls_per_cycle_app (xs ys : list event) :
  fsm_states xs = [] -> pulls_per_cycle (xs ++ ys) = pulls_per_cycle ys.
Proof.
  induction xs as [| e xs IH]; intro H; [reflexivity |].
  destruct e; cbn [fsm_states] in H; try discriminate H;
    cbn [app pulls_per_cycle]; exact (IH H).
Qed.

Section LoopPulls.

Context {U : uloop_common}.

Variables (code : code_t) (loops : loops_t) (verbose : bool).

(** The events of a cycle: the two calls, and then events without a
    call of the state machine, with one pull when the cycle is not busy
    and none when it is. *)
Lemma cycle_shape (l : locals) :
  exists evs,
    fst (cycle_in_order code loops verbose l)
    = CallExecute (state l) (registers l)
        :: CallStateMachine (state l) verbose NB_LOOPS :: evs
    /\ fsm_states evs = []
    /\ settles_run evs
       = (if busy_at loops verbose (state l) then 0%nat else 1%nat).
Proof.
  unfold cycle_in_order, advance, busy_at.
  destruct (uloop_state_machine loops (state l) verbose NB_LOOPS)
    as [[[ex en] bz] st].
  set (l1 := mkLocals _ st bz ex _ _ _ _).
  destruct bz; cbn [fst snd].
  - exists []. repeat split.
  - pose proof (settle_facts verbose l1) as (_ & Hs & _).
    pose proof (settle_trace verbose l1) as (_ & Hf & _).
    destruct (settle verbose l1) as [evs r]. exists evs. now repeat split.
Qed.

(** In the loop every cycle that is not busy has exactly one pull and
    every busy cycle has none, also when other events follow. *)
Lemma cycles_pulls_per_cycle (rng : list Z) :
  forall l tail,
    fsm_states tail = [] -> settles_run tail = 0%nat ->
    leading_pulls (out (cycles code loops verbose rng l) ++ tail) = 0%nat
    /\ pulls_per_cycle (out (cycles code loops verbose rng l) ++ tail)
       = map (fun st => if busy_at loops verbose st then 0%nat else 1%nat)
             (fsm_states (out (cycles code loops verbose rng l))).
Proof.
  assert (forall tail, fsm_states tail = [] -> settles_run tail = 0%nat ->
                       leading_pulls tail = 0%nat
                       /\ pulls_per_cycle tail = []) as Htail.
  { intros tail Hf Hs. split.
    - rewrite <- (app_nil_r tail), (leading_pulls_app tail [] Hf), Hs.
      reflexivity.
    - rewrite <- (app_nil_r tail). exact (pulls_per_cycle_app tail [] Hf). }
  induction rng as [| i rest IH]; intros l tail Hf Hs.
  - destruct (cycles_nil code loops verbose l) as [-> _].
    cbn [app fsm_states map]. now apply Htail.
  - destruct (cycles_cons code loops verbose i rest l) as [Ho _].
    rewrite Ho, fsm_states_app.
    destruct (cycle_shape l) as (evs & -> & Hfe & Hse).
    set (R := match snd (cycle_in_order code loops verbose l) with
              | inr (l', false) => out (cycles code loops verbose rest l')
              | _ => []
              end).
    assert (leading_pulls (R ++ tail) = 0%nat
            /\ pulls_per_cycle (R ++ tail)
               = map (fun st =>
                        if busy_at loops verbose st then 0%nat else 1%nat)
                     (fsm_states R)) as [HR1 HR2].
    { subst R.
      destruct (snd (cycle_in_order code loops verbose l))
        as [e | [l' [|]]]; try (cbn [app fsm_states map]; now apply Htail).
      now apply IH. }
    cbn [app leading_pulls pulls_per_cycle fsm_states map].
    split; [reflexivity |]. rewrite Hfe. cbn [app].
    rewrite <- app_assoc, (leading_pulls_app evs _ Hfe),
      (pulls_per_cycle_app evs _ Hfe), HR1, HR2, Hse.
    now destruct (busy_at loops verbose (state l)).
Qed.

End LoopPulls.

(** ** What the trace of a run shows *)

Section RunTraces.

Context {U : uloop_common}.

Lemma uloop_check_out_app (nb_iter iter_stride one_stride : Z)
      (verbose : bool) :
  out (uloop_check nb_iter iter_stride one_stride verbose)
  = [PrintConfig nb_iter iter_stride one_stride; CallLoad "code.yml";
     CallGetLoops [nb_iter]]
    ++ out (the_cycles nb_iter iter_stride one_stride verbose)
    ++ match res (the_cycles nb_iter iter_stride one_stride verbose) with
       | inr l => [PrintErrors (err l) (err l >? 0)]
       | inl _ => []
       end.
Proof.
  apply uloop_check_out.
Qed.

Lemma uloop_check_raises (nb_iter iter_stride one_stride : Z)
      (verbose : bool) :
  match res (uloop_check nb_iter iter_stride one_stride verbose) with
  | inr _ => True
  | inl x =>
      x <> NameError /\ (keeps_accumulators -> x = UnboundLocalError)
  end.
Proof.
  rewrite uloop_check_res. unfold the_cycles.
  pose proof (cycles_raises the_code (the_loops nb_iter) verbose
                (range 0 CYCLES)
                (initial_locals nb_iter iter_stride one_stride)) as H.
  destruct (res (cycles _ _ _ _ _)) as [x | l]; [| exact I].
  destruct H as [Hne Hx]. split; [exact Hne |].
  intro Hk. apply Hx; [exact Hk |]. cbn. lia.
Qed.

(** Whatever holds of the initial register file and is preserved by the
    executor holds of every register file a run hands to the executor
    or to the printer of the indices: the driver writes no register
    itself. *)
Theorem register_files_keep_invariant (P : list Z -> Prop)
        (nb_iter iter_stride one_stride : Z) (verbose : bool) :
  P (initial_registers nb_iter iter_stride one_stride) ->
  (forall st regs, P regs -> P (uloop_execute st the_code regs)) ->
  Forall (carries P) (out (uloop_check nb_iter iter_stride one_stride verbose)).
Proof.
  intros Hinit Hex. rewrite uloop_check_out_app.
  apply Forall_app. split; [repeat constructor |].
  apply Forall_app. split.
  - unfold the_cycles. now apply cycles_carry.
  - destruct (res (the_cycles nb_iter iter_stride one_stride verbose));
      repeat constructor.
Qed.

(** In a run the state machine is called once per cycle, first on
    [(0,0,0,[0])] and then each time on the state its call before
    returned; the executor is called on the same states. *)
Theorem state_machine_stepped_in_sequence (nb_iter iter_stride one_stride : Z)
        (verbose : bool) :
  let run := uloop_check nb_iter iter_stride one_stride verbose in
  fsm_states (out run)
  = fsm_orbit (the_loops nb_iter) verbose (cycles_run (out run)) initial_state
  /\ execute_states (out run) = fsm_states (out run).
Proof.
  intro run. subst run.
  destruct (uloop_check_counts nb_iter iter_stride one_stride verbose)
    as [-> _].
  rewrite uloop_check_out_app, !fsm_states_app, !execute_states_app.
  unfold the_cycles.
  destruct (cycles_states the_code (the_loops nb_iter) verbose
              (range 0 CYCLES)
              (initial_locals nb_iter iter_stride one_stride)) as [Hf He].
  rewrite He, Hf.
  change (state (initial_locals nb_iter iter_stride one_stride))
    with initial_state.
  destruct (res (cycles _ _ _ _ _)); cbn [fsm_states execute_states app];
    now rewrite app_nil_r.
Qed.

(** A run stops at the first [end]: no call of the state machine before
    the last one signalled it, and a run that returns has gone through
    all 1000 cycles or its last call signalled it. *)
Theorem run_stops_at_first_end (nb_iter iter_stride one_stride : Z)
        (verbose : bool) :
  let run := uloop_check nb_iter iter_stride one_stride verbose in
  exists pre s,
    fsm_states (out run) = pre ++ [s]
    /\ Forall (fun st => signals_end (the_loops nb_iter) verbose st = false)
              pre
    /\ match res run with
       | inr _ =>
           cycles_run (out run) = 1000%nat
           \/ signals_end (the_loops nb_iter) verbose s = true
       | inl _ => True
       end.
Proof.
  intro run. subst run.
  destruct (uloop_check_counts nb_iter iter_stride one_stride verbose)
    as [-> _].
  rewrite uloop_check_res, uloop_check_out_app, !fsm_states_app.
  unfold the_cycles. pose proof budget_length as Hb.
  destruct (range 0 CYCLES) as [| i rest]; [discriminate |].
  destruct (cycles_stop the_code (the_loops nb_iter) verbose rest i
              (initial_locals nb_iter iter_stride one_stride))
    as (pre & s & Hs & Hpre & Hres).
  exists pre, s. rewrite Hs.
  destruct (res (cycles _ _ _ _ _)); cbn [fsm_states app];
    rewrite ?app_nil_r; repeat split; try assumption.
  now rewrite <- Hb.
Qed.

(** A quiet run makes no diagnostic event, and a verbose run that
    returns has printed as many [ERROR!!!] lines as the count it
    returns. *)
Theorem diagnostics_only_when_verbose (nb_iter iter_stride one_stride : Z) :
  filter is_diagnostic (out (uloop_check nb_iter iter_stride one_stride false))
  = []
  /\ match res (uloop_check nb_iter iter_stride one_stride true) with
     | inr e =>
         Z.of_nat (errors_printed
                     (out (uloop_check nb_iter iter_stride one_stride true)))
         = e
     | inl _ => True
     end.
Proof.
  split.
  - rewrite uloop_check_out_app, !filter_app. unfold the_cycles.
    rewrite cycles_quiet.
    now destruct (res (cycles _ _ _ _ _)).
  - rewrite uloop_check_res, uloop_check_out_app, !errors_printed_app.
    unfold the_cycles.
    pose proof (cycles_errors_printed the_code (the_loops nb_iter)
                  (range 0 CYCLES)
                  (initial_locals nb_iter iter_stride one_stride)) as H.
    destruct (res (cycles _ _ _ _ _)); [exact I |].
    change (err (initial_locals nb_iter iter_stride one_stride)) with 0 in H.
    cbn. lia.
Qed.

(** A run asks the generator exactly once at every cycle that is not
    busy and never at a busy cycle, and the answers are the tuples of
    the generator in order, each once, and nothing at the settle points
    after the last tuple. *)
Theorem pulls_in_order (nb_iter iter_stride one_stride : Z) (verbose : bool) :
  let run := uloop_check nb_iter iter_stride one_stride verbose in
  let s := settles_run (out run) in
  pulls (out run)
  = firstn s (map Some (iterate_hl_loop nb_iter iter_stride one_stride)
              ++ repeat None s)
  /\ pulls_per_cycle (out run)
     = map (fun st =>
              if busy_at (the_loops nb_iter) verbose st then 0%nat
              else 1%nat)
           (fsm_states (out run)).
Proof.
  intros run s. subst run s.
  destruct (uloop_check_counts nb_iter iter_stride one_stride verbose)
    as [_ ->].
  rewrite uloop_check_out_app, !pulls_app, !fsm_states_app.
  rewrite (pulls_per_cycle_app [_; _; _]) by reflexivity.
  unfold the_cycles.
  rewrite (cycles_pulls the_code (the_loops nb_iter) verbose).
  set (tail := match res (cycles _ _ _ _ _) with
               | inr l => [PrintErrors (err l) (err l >? 0)]
               | inl _ => []
               end).
  assert (fsm_states tail = [] /\ settles_run tail = 0%nat
          /\ pulls tail = []) as (Hf & Hs & Hp).
  { subst tail. now destruct (res (cycles _ _ _ _ _)). }
  destruct (cycles_pulls_per_cycle the_code (the_loops nb_iter) verbose
              (range 0 CYCLES)
              (initial_locals nb_iter iter_stride one_stride) tail Hf Hs)
    as [_ ->].
  rewrite Hf, Hp. cbn [pulls fsm_states app]. now rewrite !app_nil_r.
Qed.


End RunTraces.

(** ** The loop and the run, cycle by cycle *)

Section LoopInOrder.

Context {U : uloop_common}.

Lemma cycles_as_specified (code : code_t) (loops : loops_t) (verbose : bool)
      (rng : list Z) (l : locals) (w : world) :
  cycles code loops verbose rng l w
  = (emit_all w (fst (cycles_in_order code loops verbose (length rng) l)),
     snd (cycles_in_order code loops verbose (length rng) l)).
Proof.
  rewrite (cycles_writes_only code loops verbose rng l w).
  now destruct (cycles_in_order_run code loops verbose rng l) as [-> ->].
Qed.

Lemma run_as_specified (nb_iter iter_stride one_stride : Z) (verbose : bool)
      (w : world) :
  let L := cycles_in_order the_code (the_loops nb_iter) verbose 1000
             (initial_locals nb_iter iter_stride one_stride) in
  uloop_check nb_iter iter_stride one_stride verbose w
  = (emit_all w
       ([PrintConfig nb_iter iter_stride one_stride; CallLoad "code.yml";
         CallGetLoops [nb_iter]]
        ++ fst L
        ++ match snd L with
           | inr l' => [PrintErrors (err l') (err l' >? 0)]
           | inl _ => []
           end),
     match snd L with
     | inr l' => inr (err l')
     | inl e => inl e
     end).
Proof.
  intro L. subst L.
  rewrite (uloop_check_runs nb_iter iter_stride one_stride verbose w).
  unfold the_cycles.
  destruct (cycles_in_order_run the_code (the_loops nb_iter) verbose
              (range 0 CYCLES)
              (initial_locals nb_iter iter_stride one_stride)) as [-> ->].
  rewrite budget_length. reflexivity.
Qed.

Lemma loop_stops_as_specified (code : code_t) (loops : loops_t)
      (verbose : bool) (l : locals) :
  let L := cycles_in_order code loops verbose 1000 l in
  exists pre s,
    fsm_states (fst L) = pre ++ [s]
    /\ Forall (fun st => signals_end loops verbose st = false) pre
    /\ match snd L with
       | inr _ =>
           cycles_run (fst L) = 1000%nat
           \/ signals_end loops verbose s = true
       | inl _ => True
       end.
Proof.
  intro L. subst L. pose proof budget_length as Hb.
  destruct (range 0 CYCLES) as [| i rest]; [discriminate |].
  destruct (cycles_stop code loops verbose rest i l)
    as (pre & s & Hs & Hpre & Hres).
  destruct (cycles_in_order_run code loops verbose (i :: rest) l)
    as [Ho Hr].
  rewrite Ho in Hs, Hres. rewrite Hr in Hres. rewrite Hb in Hs, Hres.
  exists pre, s. split; [exact Hs |]. split; [exact Hpre |]. exact Hres.
Qed.

(** C1.  Every iteration of the cycle loop of [uloop_check] follows the
    order of the five steps.  The body: the executor is called first,
    on the state and the registers from before the cycle, and the state
    machine second, on the same state; the registers afterwards are the
    candidate exactly when [execute] holds; at a busy cycle nothing else
    happens, and at any other cycle the next event is the pull from the
    generator, the accumulators after the commit are compared with the
    reference and a mismatch adds one to the counter.  The loop: over
    any range it is the body repeated from the locals the cycle before
    left, at most once per item, and a cycle whose [end] holds is the
    last one.  The run: [uloop_check] prints the configuration, loads
    the microcode and the loops, runs the loop for up to 1000 cycles
    from the initial locals and prints the summary; it executes at least
    one cycle, no cycle before its last signalled [end], and a run that
    returns has gone through all 1000 cycles or stopped on [end]. *)
Theorem cycle_follows_the_order (code : code_t) (loops : loops_t)
        (verbose : bool) (l : locals) (w : world) :
  let C := cycle_in_order code loops verbose l in
  let '(ex, en, bz, st) :=
    uloop_state_machine loops (state l) verbose NB_LOOPS in
  let regs :=
    if ex then uloop_execute (state l) code (registers l) else registers l in
  cycle code loops verbose l w = (emit_all w (fst C), snd C)
  /\ (exists evs,
        fst C = CallExecute (state l) (registers l)
                  :: CallStateMachine (state l) verbose NB_LOOPS :: evs
        /\ hd_error evs
           = if bz then None
             else Some (CallNext (option_map fst (next (hl_loop l)))))
  /\ match snd C with
     | inr (l', stop) =>
         stop = en /\ registers l' = regs /\ state l' = st
         /\ hl_loop l' = (if bz then hl_loop l else tl (hl_loop l))
         /\ err l'
            = err l
              + (if bz then 0
                 else match reference l, accumulators regs with
                      | Some hv, Some uv => if differ hv uv then 1 else 0
                      | _, _ => 0
                      end)
     | inl _ => bz = false
     end
  /\ (forall rng,
        cycles code loops verbose rng l w
        = (emit_all w
             (fst (cycles_in_order code loops verbose (length rng) l)),
           snd (cycles_in_order code loops verbose (length rng) l)))
  /\ (forall nb_iter iter_stride one_stride,
        let L := cycles_in_order the_code (the_loops nb_iter) verbose 1000
                   (initial_locals nb_iter iter_stride one_stride) in
        uloop_check nb_iter iter_stride one_stride verbose w
        = (emit_all w
             ([PrintConfig nb_iter iter_stride one_stride;
               CallLoad "code.yml"; CallGetLoops [nb_iter]]
              ++ fst L
              ++ match snd L with
                 | inr l' => [PrintErrors (err l') (err l' >? 0)]
                 | inl _ => []
                 end),
           match snd L with
           | inr l' => inr (err l')
           | inl e => inl e
           end)
        /\ exists pre s,
            fsm_states (fst L) = pre ++ [s]
            /\ Forall (fun st =>
                         signals_end (the_loops nb_iter) verbose st = false)
                      pre
            /\ match snd L with
               | inr _ =>
                   cycles_run (fst L) = 1000%nat
                   \/ signals_end (the_loops nb_iter) verbose s = true
               | inl _ => True
               end).
Proof.
  intro C. subst C.
  generalize (cycle_body_in_order code loops verbose l w). cbv zeta.
  destruct (uloop_state_machine loops (state l) verbose NB_LOOPS)
    as [[[ex en] bz] st].
  intros (HA & HB & HC).
  split; [exact HA |]. split; [exact HB |]. split; [exact HC |]. split.
  - intro rng. apply cycles_as_specified.
  - intros nb_iter iter_stride one_stride. split.
    + apply run_as_specified.
    + apply loop_stops_as_specified.
Qed.

End LoopInOrder.

(** ** What the sweep leaves behind *)

Section SweepGlobals.

Context {U : uloop_common}.

Lemma first_failing_raises (cfgs : list (Z * Z * Z)) :
  match res (first_failing cfgs) with
  | inr _ => True
  | inl x => x <> NameError
  end.
Proof.
  induction cfgs as [| [[n s] o] rest IH]; [exact I |].
  destruct (first_failing_cons n s o rest) as [_ ->].
  pose proof (uloop_check_raises n s o false) as H.
  destruct (res (uloop_check n s o false)) as [x | e]; [apply H |].
  now destruct (e =? 0).
Qed.

(** One pass of the inner loop. *)
Lemma inner_loop_cons (s : Z) (rest : list Z) (n : Z) (w : world) :
  g_nb_iter (vars w) = Some n ->
  inner_loop (s :: rest) w
  = match res (uloop_check n s 1 false) with
    | inl x =>
        (mkWorld (mkGlobals (Some n) (Some s) (Some 1) (g_err (vars w)))
                 (trace w ++ out (uloop_check n s 1 false)), inl x)
    | inr e =>
        if e >? 0 then
          (mkWorld (bound n s 1 e)
                   (trace w ++ out (uloop_check n s 1 false)), inr tt)
        else
          inner_loop rest
            (mkWorld (bound n s 1 e)
                     (trace w ++ out (uloop_check n s 1 false)))
    end.
Proof.
  intro Hn. cbn [inner_loop].
  unfold bind at 1 2 3. unfold set_iter_stride at 1, set_one_stride at 1,
    update. cbn [vars trace g_nb_iter g_iter_stride g_one_stride g_err].
  rewrite (check_globals_run false _ n s 1) by (cbn; auto).
  cbn [vars trace].
  destruct (res (uloop_check n s 1 false)) as [x | e].
  - unfold emit_all. cbn [vars trace]. now rewrite Hn.
  - unfold bind, get. cbn [vars g_err bound].
    now destruct (e >? 0).
Qed.

(** The globals after the inner loop: the failing configuration and
    its count, or the last configuration of the row and 0. *)
Lemma inner_loop_globals (strides : list Z) (n : Z) :
  forall w, g_nb_iter (vars w) = Some n ->
    match res (first_failing (row n strides)) with
    | inr (Some (n', s', o')) =>
        exists e,
          res (uloop_check n' s' o' false) = inr e
          /\ vars (fst (inner_loop strides w)) = bound n' s' o' e
    | inr None =>
        strides <> [] ->
        vars (fst (inner_loop strides w)) = bound n (last strides 0) 1 0
    | inl _ => True
    end.
Proof.
  induction strides as [| s rest IH]; intros w Hn.
  - cbn. intro H. now elim H.
  - rewrite (inner_loop_cons s rest n w Hn).
    cbn [row map].
    destruct (first_failing_cons n s 1 (row n rest)) as [_ Hr].
    fold (row n rest). rewrite Hr.
    pose proof (uloop_check_bounds n s 1 false) as Hb.
    destruct (res (uloop_check n s 1 false)) as [x | e] eqn:Ee; [exact I |].
    destruct (e >? 0) eqn:Egt.
    + assert ((e =? 0) = false) as -> by lia.
      exists e. split; [exact Ee | reflexivity].
    + assert (e = 0) as -> by lia. cbn [Z.eqb].
      specialize (IH (mkWorld (bound n s 1 0)
                              (trace w ++ out (uloop_check n s 1 false)))
                     eq_refl).
      destruct (res (first_failing (row n rest))) as [x | [[[n' s'] o'] |]];
        [exact I | exact IH |].
      intros _. destruct rest as [| s2 rest]; [reflexivity |].
      rewrite IH by discriminate. reflexivity.
Qed.

(** One pass of the outer loop. *)
Lemma outer_loop_cons (n : Z) (rest : list Z) (w : world) :
  outer_loop (n :: rest) w
  = match inner_loop [1; 16; 32]
            (mkWorld (mkGlobals (Some n) (g_iter_stride (vars w))
                                (g_one_stride (vars w)) (g_err (vars w)))
                     (trace w)) with
    | (w', inl x) => (w', inl x)
    | (w', inr _) =>
        match g_err (vars w') with
        | Some e => if e >? 0 then (w', inr tt) else outer_loop rest w'
        | None => (w', inl NameError)
        end
    end.
Proof.
  cbn [outer_loop]. unfold bind at 1 2. unfold set_nb_iter at 1, update.
  destruct (inner_loop [1; 16; 32] _) as [w' [x | []]]; [reflexivity |].
  unfold bind, get. destruct (g_err (vars w')) as [e |]; [| reflexivity].
  now destruct (e >? 0).
Qed.

(** The globals after the outer loop. *)
Lemma outer_loop_globals (nb_iters : list Z) :
  forall w,
    match res (first_failing (rows nb_iters)) with
    | inr (Some (n', s', o')) =>
        exists e,
          res (uloop_check n' s' o' false) = inr e
          /\ vars (fst (outer_loop nb_iters w)) = bound n' s' o' e
    | inr None =>
        nb_iters <> [] ->
        vars (fst (outer_loop nb_iters w)) = bound (last nb_iters 0) 32 1 0
    | inl _ => True
    end.
Proof.
  induction nb_iters as [| n rest IH]; intro w.
  - cbn. intro H. now elim H.
  - rewrite outer_loop_cons. cbn [rows flat_map]. fold (rows rest).
    destruct (first_failing_app (row n [1; 16; 32]) (rows rest)) as [_ Hr].
    rewrite Hr.
    set (w1 := mkWorld _ (trace w)).
    destruct (inner_loop_run [1; 16; 32] n w1) as (g1 & Hrun & Hg1);
      [reflexivity |].
    pose proof (inner_loop_globals [1; 16; 32] n w1 eq_refl) as Hgl.
    rewrite Hrun in *. cbn [fst vars] in Hgl.
    destruct (res (first_failing (row n [1; 16; 32])))
      as [x | [[[n' s'] o'] |]].
    + exact I.
    + destruct Hg1 as (e & He & Hg). destruct Hgl as (e' & He' & Hg').
      exists e'. split; [exact He' |].
      cbn [vars]. rewrite Hg. cbn [g_err bound].
      assert ((e >? 0) = true) as -> by lia. cbn [fst vars].
      now rewrite <- Hg.
    + destruct Hg1 as [_ [Hnil | He]]; [discriminate |].
      specialize (Hgl ltac:(discriminate)). cbn [last] in Hgl.
      cbn [vars]. rewrite He. cbn [Z.gtb Z.compare].
      specialize (IH (mkWorld g1
                        (trace w1 ++ out (first_failing (row n [1; 16; 32]))))).
      destruct (res (first_failing (rows rest))) as [x | [[[n' s'] o'] |]];
        [exact I | exact IH |].
      intros _. destruct rest as [| n2 rest]; [exact Hgl |].
      rewrite IH by discriminate. reflexivity.
Qed.

(** From any world the script never raises [NameError]: it reads no
    global before it has bound it. *)
Theorem sweep_reads_bound_globals (w : world) :
  match snd (main w) with
  | inl NameError => False
  | _ => True
  end.
Proof.
  destruct (main_run w) as [g' ->]. cbn [snd].
  rewrite (runs_res _ _ _ sweep_as_specified_runs).
  pose proof (first_failing_raises sweep_matrix) as HF.
  destruct (res (first_failing sweep_matrix)) as [x | [[[n s] o] |]].
  - destruct x; try exact I. now elim HF.
  - pose proof (uloop_check_raises n s o true) as Hc.
    destruct (res (uloop_check n s o true)) as [x | e]; [| exact I].
    destruct Hc as [Hne _]. destruct x; try exact I. now elim Hne.
  - exact I.
Qed.

(** The globals when the script stops, by the outcome of the quiet
    sweep. *)
Lemma sweep_leaves_failing_configuration_aux (w : world) :
  match res (first_failing sweep_matrix) with
  | inr None => vars (fst (main w)) = bound 64 32 1 0
  | inr (Some (n, s, o)) =>
      exists e,
        res (uloop_check n s o false) = inr e
        /\ 0 < e
        /\ vars (fst (main w))
           = bound n s o (match res (uloop_check n s o true) with
                          | inr e' => e'
                          | inl _ => e
                          end)
  | inl _ => True
  end.
Proof.
  assert (main w
          = match outer_loop [16; 32; 64] w with
            | (w', inl x) => (w', inl x)
            | (w', inr _) =>
                match g_err (vars w') with
                | Some e => if e >? 0 then check_globals true w'
                            else (w', inr tt)
                | None => (w', inl NameError)
                end
            end) as ->.
  { unfold main. unfold bind at 1.
    destruct (outer_loop [16; 32; 64] w) as [w' [x | []]]; [reflexivity |].
    unfold bind, get. destruct (g_err (vars w')) as [e |]; [| reflexivity].
    now destruct (e >? 0). }
  destruct (outer_loop_run [16; 32; 64] w) as (g1 & Hrun & Hg1).
  pose proof (outer_loop_globals [16; 32; 64] w) as Hgl.
  change (rows [16; 32; 64]) with sweep_matrix in *.
  rewrite Hrun in *. cbn [fst vars] in Hgl.
  destruct (res (first_failing sweep_matrix)) as [x | [[[n s] o] |]].
  - exact I.
  - destruct Hg1 as (e & He & Hg). destruct Hgl as (e' & He' & Hg').
    assert (e' = e) as -> by (rewrite Hg in Hg'; now inversion Hg').
    exists e. split; [exact He' |]. split; [exact He |].
    cbn [vars]. rewrite Hg. cbn [g_err bound].
    assert ((e >? 0) = true) as -> by lia.
    rewrite (check_globals_run true _ n s o) by reflexivity.
    now destruct (res (uloop_check n s o true)).
  - destruct Hg1 as [Hnil | He]; [discriminate |].
    specialize (Hgl ltac:(discriminate)). cbn [last] in Hgl.
    cbn [vars]. rewrite He. cbn [Z.gtb Z.compare].
    exact Hgl.
Qed.

(** What the script leaves in the globals.  When no configuration
    fails they are those of the last configuration, (64, 32, 1), with
    [err] 0.  When one fails they name the first failing configuration,
    and [err] is the count of its verbose rerun, or the count of its
    quiet run if the rerun raises. *)
Theorem sweep_leaves_failing_configuration (w : world) :
  match res (first_failing sweep_matrix) with
  | inr None => vars (fst (main w)) = bound 64 32 1 0
  | inr (Some (n, s, o)) =>
      exists e,
        res (uloop_check n s o false) = inr e
        /\ 0 < e
        /\ vars (fst (main w))
           = bound n s o (match res (uloop_check n s o true) with
                          | inr e' => e'
                          | inl _ => e
                          end)
  | inl _ => True
  end.
Proof.
  exact (sweep_leaves_failing_configuration_aux w).
Qed.

(** With a state machine blind to [verbose] and an executor that keeps
    the accumulators, the global [err] is 0 when the script ends exactly
    when no configuration of the sweep failed. *)
Theorem final_err_tells_failure :
  verbose_blind -> keeps_accumulators ->
  final_err = Some 0 <-> res (first_failing sweep_matrix) = inr None.
Proof.
  intros Hv Hk. unfold final_err.
  pose proof (sweep_leaves_failing_configuration_aux empty_world) as H.
  destruct (first_failing_returns sweep_matrix Hk sweep_matrix_iterations)
    as (r & Hr & _).
  rewrite Hr in *. destruct r as [[[n s] o] |].
  - destruct H as (e & He & Hpos & ->).
    rewrite (uloop_check_verbose n s o Hv), He. cbn [g_err bound].
    split; intro H; [inversion H; lia | discriminate].
  - rewrite H. cbn [g_err bound]. split; reflexivity.
Qed.

End SweepGlobals.

(** ** Instances of the properties with a premise *)

Lemma register_files_keep_invariant_witness :
  skipn 4 (initial_registers 16 16 1) = [16; 16; 1]
  /\ (forall st regs,
        skipn 4 regs = [16; 16; 1] ->
        skipn 4 (@uloop_execute spec_common st (@the_code spec_common) regs)
        = [16; 16; 1])
  /\ Forall (carries (fun regs => skipn 4 regs = [16; 16; 1]))
            (out (@uloop_check spec_common 16 16 1 true)).
Proof.
  assert (forall st regs,
             skipn 4 regs = [16; 16; 1] ->
             skipn 4 (@uloop_execute spec_common st (@the_code spec_common)
                                     regs)
             = [16; 16; 1]) as Hex.
  { intros st regs H. cbn [uloop_execute spec_common]. unfold spec_execute.
    destruct regs as [| a [| b [| c [| d [| n [| i [| o [| x r]]]]]]]];
      exact H. }
  split; [reflexivity |]. split; [exact Hex |].
  exact (@register_files_keep_invariant spec_common
           (fun regs => skipn 4 regs = [16; 16; 1]) 16 16 1 true
           eq_refl Hex).
Defined.


Lemma final_err_tells_failure_witness :
  @verbose_blind spec_common
  /\ @keeps_accumulators spec_common
  /\ (@final_err spec_common = Some 0
      <-> res (@first_failing spec_common sweep_matrix) = inr None).
Proof.
  split; [exact spec_verbose_blind |].
  split; [exact spec_keeps_accumulators |].
  exact (@final_err_tells_failure spec_common
           spec_verbose_blind spec_keeps_accumulators).
Defined.
